(** * kcptun client: session pool, scavenger, control FIFO, startup checks

    A shallow embedding of [client/main.go].  Every goroutine body is a
    step function over an explicit state.  What a goroutine observes from
    outside (the clock, [IsClosed], the outcome of a dial, a line read from
    the pipe) is an argument of its step; what it does to the outside
    (channel sends, spawned handlers, [SetFEC], [Close], log lines) is
    appended to an event trace. *)

From Stdlib Require Import ZArith Lia Strings.Ascii Strings.Byte.
From stdpp Require Import base strings list.

Local Open Scope string_scope.
Local Open Scope list_scope.
Local Open Scope Z_scope.

(** ** Go primitives *)

Module Go.

(** How a goroutine body ends: it goes on with a value, the process
    exits through [log.Fatal]/[log.Fatalf], or the runtime panics. *)
Inductive panic_kind :=
| DivideByZero
| IndexOutOfRange (index len : nat)
| SliceOutOfRange (bound cap : nat)
| NilDereference.

Inductive outcome (A : Type) :=
| Ok (a : A)
| Fatal
| Panic (p : panic_kind).
Arguments Ok {A} a.
Arguments Fatal {A}.
Arguments Panic {A} p.

Definition bind {A B} (m : outcome A) (k : A → outcome B) : outcome B :=
  match m with
  | Ok a => k a
  | Fatal => Fatal
  | Panic p => Panic p
  end.

Definition is_ok {A} (m : outcome A) : bool :=
  match m with Ok _ => true | _ => false end.

(** [uint16(x)] for an [int] x, and [uint16] increment. *)
Definition uint16 (x : Z) : Z := x mod 2 ^ 16.

(** [int64] wrap-around of a mathematical integer. *)
Definition int64 (x : Z) : Z := (x + 2 ^ 63) mod 2 ^ 64 - 2 ^ 63.

Definition maxInt64 : Z := 2 ^ 63 - 1.
Definition minInt64 : Z := - 2 ^ 63.

(** [s[i]] on a slice: a run-time panic when out of range. *)
Definition index {A} (l : list A) (i : nat) : outcome A :=
  match l !! i with
  | Some a => Ok a
  | None => Panic (IndexOutOfRange i (length l))
  end.

(** [time.Time] as a count of nanoseconds, [time.Duration] as an
    [int64] count of nanoseconds.  Instants are unbounded here: what
    [Add] does at the ends of the range of [time.Time] is left out. *)
Definition Time := Z.
Definition Duration := Z.
Definition Second : Duration := 1000000000.

(** [time.Duration(n) * time.Second]: an [int64] product. *)
Definition seconds (n : Z) : Duration := int64 (int64 n * Second).

(** [t.Add(d)] and [t.After(u)]. *)
Definition Add (t : Time) (d : Duration) : Time := t + d.
Definition After (t u : Time) : bool := u <? t.

(** [strings.Split(s, " ")]: the fields between single spaces; never
    empty, a string without a space is its only field. *)
Fixpoint split_from (cur : string) (s : string) : list string :=
  match s with
  | EmptyString => [cur]
  | String c s' =>
      if Ascii.eqb c " "%char then cur :: split_from "" s'
      else split_from (cur +:+ String c "") s'
  end.
Definition Split_space (s : string) : list string := split_from "" s.

(** [strings.Contains(s, substr)]. *)
Fixpoint Contains (s substr : string) : bool :=
  String.prefix substr s ||
  match s with
  | EmptyString => false
  | String _ s' => Contains s' substr
  end.

(** [s[:n]] on a byte slice whose capacity is its length. *)
Definition slice_to {A} (l : list A) (n : nat) : outcome (list A) :=
  if (n <=? length l)%nat then Ok (take n l)
  else Panic (SliceOutOfRange n (length l)).

(** *** [strconv.Atoi] with a 64-bit [int]

    [Atoi] is [ParseInt(s, 10, 0)] converted to [int]: an optional sign,
    then decimal digits read by the loop of [ParseUint(s, 10, 64)].  The
    loop stops at the first byte that is not a digit (value 0, syntax
    error) or at the first digit that overflows 64 bits (largest value,
    range error), whichever comes first. *)
Inductive NumError := ErrSyntax | ErrRange.

Definition maxUint64 : Z := 2 ^ 64 - 1.

Definition digit (c : ascii) : option Z :=
  let n := Z.of_nat (nat_of_ascii c) in
  if (48 <=? n) && (n <=? 57) then Some (n - 48) else None.

Fixpoint parse_digits (n : Z) (s : string) : Z * option NumError :=
  match s with
  | EmptyString => (n, None)
  | String c s' =>
      match digit c with
      | None => (0, Some ErrSyntax)
      | Some d =>
          if maxUint64 / 10 + 1 <=? n then (maxUint64, Some ErrRange)
          else
            let n1 := n * 10 + d in
            if maxUint64 <? n1 then (maxUint64, Some ErrRange)
            else parse_digits n1 s'
      end
  end.

Definition ParseUint (s : string) : Z * option NumError :=
  match s with
  | EmptyString => (0, Some ErrSyntax)
  | _ => parse_digits 0 s
  end.

Definition ParseInt (s : string) : Z * option NumError :=
  match s with
  | EmptyString => (0, Some ErrSyntax)
  | String c s' =>
      let neg := Ascii.eqb c "-"%char in
      let body := if Ascii.eqb c "+"%char || neg then s' else s in
      match ParseUint body with
      | (_, Some ErrSyntax) => (0, Some ErrSyntax)
      | (un, _) =>
          if negb neg && (2 ^ 63 <=? un) then (2 ^ 63 - 1, Some ErrRange)
          else if neg && (2 ^ 63 <? un) then (- 2 ^ 63, Some ErrRange)
          else (if neg then - un else un, None)
      end
  end.

Definition Atoi (s : string) : Z * option NumError := ParseInt s.

End Go.
Export Go.

(** ** Configuration

    Those fields of the [Config] struct that the code modelled below
    reads or writes; [int] fields are unbounded integers here, and the
    conversions the code applies to them are written out where they
    happen. *)

Record Config := mkConfig {
  Key : string;
  Crypt : string;
  Conn : Z;
  AutoExpire : Z;
  ScavengeTTL : Z;
  DataShard : Z;
  ParityShard : Z;
  SmuxVer : Z;
  Fifo : string;
  Quiet : bool
}.

Definition set_Crypt (c : Config) (v : string) : Config :=
  mkConfig (Key c) v (Conn c) (AutoExpire c) (ScavengeTTL c)
           (DataShard c) (ParityShard c) (SmuxVer c) (Fifo c) (Quiet c).

Definition set_shards (c : Config) (ds ps : Z) : Config :=
  mkConfig (Key c) (Crypt c) (Conn c) (AutoExpire c) (ScavengeTTL c)
           ds ps (SmuxVer c) (Fifo c) (Quiet c).

(** The flag defaults of [myApp.Flags]. *)
Definition default_config : Config :=
  mkConfig "it's a secrect" "aes" 1 0 600 10 3 1 "" false.

(** ** Startup: parameter check and cipher selection *)

Definition SALT : string := "kcp-go".
Definition maxSmuxVer : Z := 2.

(** [if config.SmuxVer > maxSmuxVer { log.Fatal(...) }] *)
Definition parameters_check (config : Config) : outcome unit :=
  if maxSmuxVer <? SmuxVer config then Fatal else Ok tt.

(** The constructors of [kcp.BlockCrypt] the switch calls, with the key
    slice each one is given. *)
Inductive cipher :=
| SM4 | TEA | SimpleXOR | NoneCipher | AES | Blowfish
| Twofish | Cast5 | TripleDES | XTEA | Salsa20.

Record BlockCrypt := mkBlock { algo : cipher; key : list byte }.

Definition keyed (a : cipher) (k : outcome (list byte))
  : outcome (option BlockCrypt) :=
  bind k (λ k, Ok (Some (mkBlock a k))).

(** The [switch config.Crypt]: the configuration after it and [block]. *)
Definition select_crypt (config : Config) (pass : list byte)
  : outcome (Config * option BlockCrypt) :=
  let same b := bind b (λ b, Ok (config, b)) in
  let c := Crypt config in
  if String.eqb c "null" then Ok (config, None)
  else if String.eqb c "sm4" then same (keyed SM4 (slice_to pass 16))
  else if String.eqb c "tea" then same (keyed TEA (slice_to pass 16))
  else if String.eqb c "xor" then same (keyed SimpleXOR (Ok pass))
  else if String.eqb c "none" then same (keyed NoneCipher (Ok pass))
  else if String.eqb c "aes-128" then same (keyed AES (slice_to pass 16))
  else if String.eqb c "aes-192" then same (keyed AES (slice_to pass 24))
  else if String.eqb c "blowfish" then same (keyed Blowfish (Ok pass))
  else if String.eqb c "twofish" then same (keyed Twofish (Ok pass))
  else if String.eqb c "cast5" then same (keyed Cast5 (slice_to pass 16))
  else if String.eqb c "3des" then same (keyed TripleDES (slice_to pass 24))
  else if String.eqb c "xtea" then same (keyed XTEA (slice_to pass 16))
  else if String.eqb c "salsa20" then same (keyed Salsa20 (Ok pass))
  else bind (keyed AES (Ok pass)) (λ b, Ok (set_Crypt config "aes", b)).

(** Lines 345-384 of [main]: the check, the key derivation, the switch.
    [pbkdf2_Key] stands for [pbkdf2.Key(password, salt, iter, keyLen,
    sha1.New)] of golang.org/x/crypto. *)
Definition startup
    (pbkdf2_Key : list byte → list byte → nat → nat → list byte)
    (config : Config) : outcome (Config * option BlockCrypt) :=
  bind (parameters_check config) (λ _,
    let pass :=
      pbkdf2_Key (String.list_byte_of_string (Key config))
                 (String.list_byte_of_string SALT) 4096%nat 32%nat in
    select_crypt config pass).

(** ** Sessions, events *)

(** An [*smux.Session] and the [*kcp.UDPSession] under it are heap
    objects; each is named by the order of its allocation in [waitConn]. *)
Definition Session := nat.
Definition UDPSession := nat.

Record timedSession := mkTimed {
  session : option Session;
  expiryDate : Time
}.

(** The zero [timedSession] of [make([]timedSession, numconn)]. *)
Definition zeroTime : Time := 0.
Definition zero_timedSession : timedSession := mkTimed None zeroTime.

Inductive Event :=
| Log (msg : string) (args : list Z)
| ChanSend (item : timedSession)
    (* chScavenger <- item *)
| GoHandleClient (idx : nat) (s : option Session)
    (* go handleClient(muxes[idx].session, p1, config.Quiet) *)
| SetFEC (conn : UDPSession) (ds ps : Z)
    (* conn.SetFEC(ds, ps) *)
| SessionClose (s : Session).
    (* s.Close() *)

(** ** Goroutine bodies: a trace of events and an outcome

    The trace holds what was done up to the point where the body stopped,
    also when it stopped in [log.Fatal] or in a panic. *)

Record run (A : Type) := mkRun {
  trace : list Event;
  result : outcome A
}.
Arguments mkRun {A} trace result.
Arguments trace {A} r.
Arguments result {A} r.

Definition ret {A} (a : A) : run A := mkRun [] (Ok a).
Definition emit (e : Event) : run unit := mkRun [e] (Ok tt).
Definition fatal {A} : run A := mkRun [] Fatal.
Definition panic {A} (p : panic_kind) : run A := mkRun [] (Panic p).
Definition lift {A} (m : outcome A) : run A := mkRun [] m.

Definition andThen {A B} (m : run A) (k : A → run B) : run B :=
  match result m with
  | Ok a => mkRun (trace m ++ trace (k a)) (result (k a))
  | Fatal => mkRun (trace m) Fatal
  | Panic p => mkRun (trace m) (Panic p)
  end.

Declare Scope run_scope.
Delimit Scope run_scope with run.
Notation "'do' x <- m ; k" := (andThen m (λ x, k))
  (at level 10, x name, m at level 100, k at level 200) : run_scope.
Notation "'do' ' p <- m ; k" := (andThen m (λ p, k))
  (at level 10, p pattern, m at level 100, k at level 200) : run_scope.
Notation "'exec' m ; k" := (andThen m (λ _, k))
  (at level 10, m at level 100, k at level 200) : run_scope.
Local Open Scope run_scope.

(** ** The listener goroutine (session pool and round-robin) *)

Record Pool := mkPool {
  numconn : Z;                        (* uint16 *)
  muxes : list timedSession;
  connes : list (option UDPSession);
  rr : Z;                             (* uint16 *)
  allocated : nat                     (* sessions dialed so far *)
}.

(** [numconn := uint16(config.Conn)], the two [make]s, [rr := uint16(0)]. *)
Definition listener_start (config : Config) : Pool :=
  let n := uint16 (Conn config) in
  mkPool n (replicate (Z.to_nat n) zero_timedSession)
         (replicate (Z.to_nat n) None) 0 0.

(** What [waitConn] did: [createConn] failed [retries] times, then either
    returned a session or ended the process in [log.Fatalf] (the
    [smux.VerifyConfig] branch). *)
Inductive dial_result :=
| DialReturns (retries : nat)
| DialFatal (retries : nat).

(** What one iteration of the accept loop observes.  A send on the
    buffered channel is taken to go through: with auto-expiry on, the
    scavenger is there to receive. *)
Record AcceptObs := mkObs {
  accept_err : bool;      (* listener.AcceptTCP() returned an error *)
  is_closed : bool;       (* muxes[idx].session.IsClosed() *)
  now_check : Time;       (* time.Now() of the expiry test *)
  dial : dial_result;     (* waitConn() *)
  now_fill : Time         (* time.Now() of the new expiryDate *)
}.

Fixpoint reconnecting (retries : nat) : run unit :=
  match retries with
  | O => ret tt
  | S n => exec emit (Log "re-connecting:" []); reconnecting n
  end.

Definition waitConn (st : Pool) (d : dial_result)
  : run (Session * UDPSession) :=
  match d with
  | DialReturns n => exec reconnecting n; ret (allocated st, allocated st)
  | DialFatal n => exec reconnecting n; fatal
  end.

(** The condition of the [if] at lines 467-468, with Go's short-circuit
    order. *)
Definition stale (config : Config) (m : timedSession) (o : AcceptObs) : bool :=
  match session m with
  | None => true
  | Some _ =>
      is_closed o ||
      ((0 <? AutoExpire config) && After (now_check o) (expiryDate m))
  end.

(** The body of that [if]: lines 469-473. *)
Definition refill (config : Config) (st : Pool) (idx : nat) (o : AcceptObs)
  : run Pool :=
  do '(s, c) <- waitConn st (dial o);
  let m := mkTimed (Some s)
                   (Add (now_fill o) (seconds (AutoExpire config))) in
  exec (if 0 <? AutoExpire config then emit (ChanSend m) else ret tt);
  ret (mkPool (numconn st) (<[idx := m]> (muxes st))
              (<[idx := Some c]> (connes st)) (rr st) (S (allocated st))).

(** One iteration of the [for] loop, lines 460-477. *)
Definition acceptor_step (config : Config) (st : Pool) (o : AcceptObs)
  : run Pool :=
  if accept_err o then fatal
  else if numconn st =? 0 then panic DivideByZero
  else
    let idx := Z.to_nat (rr st mod numconn st) in
    do m <- lift (index (muxes st) idx);
    do st1 <- (if stale config m o then refill config st idx o else ret st);
    do m1 <- lift (index (muxes st1) idx);
    exec emit (GoHandleClient idx (session m1));
    ret (mkPool (numconn st1) (muxes st1) (connes st1)
                (uint16 (rr st1 + 1)) (allocated st1)).

(** The loop over a sequence of observations. *)
Fixpoint acceptor_run (config : Config) (st : Pool) (os : list AcceptObs)
  : run Pool :=
  match os with
  | [] => ret st
  | o :: os' =>
      do st1 <- acceptor_step config st o; acceptor_run config st1 os'
  end.

Definition acceptor (config : Config) (os : list AcceptObs) : run Pool :=
  acceptor_run config (listener_start config) os.

(** The slots and sessions given to [handleClient], in order of the
    accepts. *)
Definition handled (tr : list Event) : list (nat * option Session) :=
  omap (λ e, match e with
             | GoHandleClient i s => Some (i, s)
             | _ => None
             end) tr.

(** The items sent on [chScavenger], in order. *)
Definition sent (tr : list Event) : list timedSession :=
  omap (λ e, match e with ChanSend m => Some m | _ => None end) tr.

(** ** The scavenger goroutine *)

Inductive scav_input :=
| Recv (item : timedSession)                     (* item := <-ch *)
| Tick (closed : nat → bool) (now : nat → Time). (* <-ticker.C *)

Inductive scav_state :=
| Returned
| Looping (sessionList : list timedSession).

(** The [for k := range sessionList] of a tick, from entry [k] on: entry
    [k] sees [closed k] from [IsClosed()] and, if that is false, [now k]
    from [time.Now()]. *)
Fixpoint sweep (closed : nat → bool) (now : nat → Time) (k : nat)
    (l newList : list timedSession) : run (list timedSession) :=
  match l with
  | [] => ret newList
  | s :: l' =>
      match session s with
      | None => panic NilDereference
      | Some p =>
          if closed k then
            exec emit (Log "scavenger: session normally closed:" []);
            sweep closed now (S k) l' newList
          else if After (now k) (expiryDate s) then
            exec emit (SessionClose p);
            exec emit (Log "scavenger: session closed due to ttl:" []);
            sweep closed now (S k) l' newList
          else sweep closed now (S k) l' (newList ++ [s])
      end
  end.

(** One case of the [select]. *)
Definition scavenger_step (config : Config) (sessionList : list timedSession)
    (i : scav_input) : run (list timedSession) :=
  match i with
  | Recv item =>
      ret (sessionList ++
             [mkTimed (session item)
                      (Add (expiryDate item) (seconds (ScavengeTTL config)))])
  | Tick closed now =>
      if (length sessionList =? 0)%nat then ret sessionList
      else sweep closed now 0 sessionList []
  end.

Fixpoint scavenger_loop (config : Config) (sessionList : list timedSession)
    (ins : list scav_input) : run (list timedSession) :=
  match ins with
  | [] => ret sessionList
  | i :: ins' =>
      do l1 <- scavenger_step config sessionList i;
      scavenger_loop config l1 ins'
  end.

(** [scavenger(ch, config)] over the inputs its [select] would take: the
    state it is left in and the inputs it never took. *)
Definition scavenger (config : Config) (ins : list scav_input)
  : run (scav_state * list scav_input) :=
  if AutoExpire config <=? 0 then ret (Returned, ins)
  else do l <- scavenger_loop config [] ins; ret (Looping l, []).

(** ** The control FIFO reader *)

(** [for addr := range connes { if connes[addr] != nil { ...SetFEC } }] *)
Fixpoint set_fec_all (connes : list (option UDPSession)) (ds ps : Z)
  : run unit :=
  match connes with
  | [] => ret tt
  | Some u :: connes' => exec emit (SetFEC u ds ps); set_fec_all connes' ds ps
  | None :: connes' => set_fec_all connes' ds ps
  end.

(** The body of [if err == nil] for one line of [reader.ReadLine()]. *)
Definition fifo_line (config : Config) (connes : list (option UDPSession))
    (line : string) : run Config :=
  let message := Split_space line in
  do m0 <- lift (index message 0);
  if Contains m0 "fec" then
    do m1 <- lift (index message 1);
    let ds := fst (Atoi m1) in
    do m2 <- lift (index message 2);
    let ps := fst (Atoi m2) in
    if negb (ds =? DataShard config) || negb (ps =? ParityShard config) then
      let config' := set_shards config ds ps in
      exec emit (Log "ds: ps:" [ds; ps]);
      exec set_fec_all connes (DataShard config') (ParityShard config');
      ret config'
    else ret config
  else
    exec emit (Log "Unknown call" []); ret config.

(** What [reader.ReadLine()] returned. *)
Inductive read_result :=
| ReadLine (line : string)
| ReadError.

(** The reader's [for] loop over a sequence of reads, against the
    [connes] it finds. *)
Fixpoint fifo_reader (config : Config) (connes : list (option UDPSession))
    (reads : list read_result) : run Config :=
  match reads with
  | [] => ret config
  | r :: reads' =>
      do c1 <- match r with
            | ReadLine line => fifo_line config connes line
            | ReadError => ret config
            end;
      fifo_reader c1 connes reads'
  end.

(** ** Mode profiles

    The [switch config.Mode] of [main], lines 305-314, on the four tuning
    fields it assigns. *)

Record Tuning := mkTuning {
  NoDelay : Z;
  Interval : Z;
  Resend : Z;
  NoCongestion : Z
}.

Definition apply_mode (mode : string) (t : Tuning) : Tuning :=
  if String.eqb mode "normal" then mkTuning 0 40 2 1
  else if String.eqb mode "fast" then mkTuning 0 30 2 1
  else if String.eqb mode "fast2" then mkTuning 1 20 2 1
  else if String.eqb mode "fast3" then mkTuning 1 10 2 1
  else t.

(** ** [createConn] and [waitConn], lines 386-441 *)

(** The fields of [Config] that [createConn] reads besides [SmuxVer]. *)
Record Transport := mkTransport {
  tuning : Tuning;
  SndWnd : Z;
  RcvWnd : Z;
  MTU : Z;
  AckNodelay : bool;
  DSCP : Z;
  SockBuf : Z;
  SmuxBuf : Z;
  StreamBuf : Z;
  KeepAlive : Z;
  NoComp : bool
}.

(** The fields of [smux.DefaultConfig()] that [createConn] overwrites. *)
Record SmuxConfig := mkSmuxConfig {
  Version : Z;
  MaxReceiveBuffer : Z;
  MaxStreamBuffer : Z;
  KeepAliveInterval : Duration
}.

(** What one call of [createConn] observes: which of its calls return
    an error. *)
Record CreateObs := mkCreateObs {
  dial_err : bool;      (* dial(&config, block) *)
  dscp_err : bool;      (* kcpconn.SetDSCP *)
  rbuf_err : bool;      (* kcpconn.SetReadBuffer *)
  wbuf_err : bool;      (* kcpconn.SetWriteBuffer *)
  verify_err : bool;    (* smux.VerifyConfig *)
  client_err : bool     (* smux.Client *)
}.

Inductive ConnEvent :=
| Dial
| SetStreamMode (on : bool)
| SetWriteDelay (on : bool)
| SetNoDelay (t : Tuning)
| SetWindowSize (sndwnd rcvwnd : Z)
| SetMtu (mtu : Z)
| SetACKNoDelay (on : bool)
| SetDSCP (dscp : Z)
| SetReadBuffer (bytes : Z)
| SetWriteBuffer (bytes : Z)
| ConnLog (msg : string)
| VerifyConfig (c : SmuxConfig)
| SmuxClient (compressed : bool) (c : SmuxConfig)
| Sleep (d : Duration).

Inductive create_outcome :=
| Created                 (* return session, kcpconn, nil *)
| Failed (wrapped : string)   (* return nil, nil, errors.Wrap(err, ...) *)
| Exited.                 (* log.Fatalf *)

Definition log_if (err : bool) (msg : string) : list ConnEvent :=
  if err then [ConnLog msg] else [].

Definition createConn (config : Config) (t : Transport) (o : CreateObs)
  : list ConnEvent * create_outcome :=
  if dial_err o then ([Dial], Failed "dial()")
  else
    let smuxConfig :=
      mkSmuxConfig (SmuxVer config) (SmuxBuf t) (StreamBuf t)
                   (seconds (KeepAlive t)) in
    let setup :=
      [Dial; SetStreamMode true; SetWriteDelay false; SetNoDelay (tuning t);
       SetWindowSize (SndWnd t) (RcvWnd t); SetMtu (MTU t);
       SetACKNoDelay (AckNodelay t)]
      ++ [SetDSCP (DSCP t)] ++ log_if (dscp_err o) "SetDSCP:"
      ++ [SetReadBuffer (SockBuf t)] ++ log_if (rbuf_err o) "SetReadBuffer:"
      ++ [SetWriteBuffer (SockBuf t)] ++ log_if (wbuf_err o) "SetWriteBuffer:"
      ++ [ConnLog "smux version:"; VerifyConfig smuxConfig] in
    if verify_err o then (setup, Exited)
    else
      let opened := setup ++ [SmuxClient (negb (NoComp t)) smuxConfig] in
      if client_err o then (opened, Failed "createConn()")
      else (opened, Created).

Inductive wait_outcome :=
| WaitReturned      (* return session, conn *)
| WaitExited        (* the process ended inside createConn *)
| WaitRetrying.     (* still in the loop after the attempts given *)

(** The [for] loop of [waitConn] over the attempts it gets to make. *)
Fixpoint waitConn_attempts (config : Config) (t : Transport)
    (attempts : list CreateObs) : list ConnEvent * wait_outcome :=
  match attempts with
  | [] => ([], WaitRetrying)
  | o :: attempts' =>
      match createConn config t o with
      | (ev, Created) => (ev, WaitReturned)
      | (ev, Exited) => (ev, WaitExited)
      | (ev, Failed _) =>
          let '(ev', r) := waitConn_attempts config t attempts' in
          (ev ++ [ConnLog "re-connecting:"; Sleep Second] ++ ev', r)
      end
  end.

(** The log lines of [waitConn] that the listener's trace keeps. *)
Definition reconnect_logs (ev : list ConnEvent) : list Event :=
  omap (λ e, match e with
             | ConnLog msg =>
                 if String.eqb msg "re-connecting:"
                 then Some (Log "re-connecting:" []) else None
             | _ => None
             end) ev.

Definition sleeps (ev : list ConnEvent) : list Duration :=
  omap (λ e, match e with Sleep d => Some d | _ => None end) ev.

(** An attempt that fails without ending the process. *)
Definition attempt_fails (o : CreateObs) : bool :=
  dial_err o || (negb (verify_err o) && client_err o).

Definition attempt_succeeds (o : CreateObs) : bool :=
  negb (dial_err o) && negb (verify_err o) && negb (client_err o).

Definition attempt_fatal (o : CreateObs) : bool :=
  negb (dial_err o) && verify_err o.

(** ** [handleClient], lines 41-73 *)

(** [p1], the accepted TCP connection, and [p2], the stream opened for
    it. *)
Inductive endpoint := P1 | P2.

(** What [generic.Copy] returned: nil, [smux.ErrInvalidProtocol], or
    another error. *)
Inductive copy_result := CopyDone | CopyInvalidProtocol | CopyError.

Inductive ClientEvent :=
| OpenStream (s : Session)
| ClientLog (msg : string)
| GoStreamCopy (dst src : endpoint)    (* go streamCopy(dst, src) *)
| Copy (dst src : endpoint)            (* generic.Copy(dst, src) *)
| CloseEnd (p : endpoint).             (* p.Close() *)

Record ClientObs := mkClientObs {
  open_err : bool;          (* session.OpenStream() returned an error *)
  copy_up : copy_result;    (* generic.Copy(p2, p1) *)
  copy_down : copy_result   (* generic.Copy(p1, p2), in the goroutine *)
}.

(** What a call of [handleClient] does itself, what the goroutine it
    starts does, and whether it died in a panic. *)
Record client_run := mkClientRun {
  foreground : list ClientEvent;
  background : list ClientEvent;
  crashed : option panic_kind
}.

(** [logln]: [log.Println] unless [quiet]. *)
Definition logln (quiet : bool) (msg : string) : list ClientEvent :=
  if quiet then [] else [ClientLog msg].

Definition streamCopy (dst src : endpoint) (r : copy_result)
  : list ClientEvent :=
  [Copy dst src]
  ++ match r with
     | CopyInvalidProtocol => [ClientLog "smux"]
     | _ => []
     end
  ++ [CloseEnd P1; CloseEnd P2].

(** The deferred calls run last, in reverse order of their [defer]. *)
Definition handleClient (session : option Session) (quiet : bool)
    (o : ClientObs) : client_run :=
  match session with
  | None => mkClientRun [CloseEnd P1] [] (Some NilDereference)
  | Some s =>
      if open_err o then
        mkClientRun ([OpenStream s] ++ logln quiet "err" ++ [CloseEnd P1])
                    [] None
      else
        mkClientRun
          ([OpenStream s] ++ logln quiet "stream opened"
           ++ [GoStreamCopy P1 P2] ++ streamCopy P2 P1 (copy_up o)
           ++ logln quiet "stream closed" ++ [CloseEnd P2; CloseEnd P1])
          (streamCopy P1 P2 (copy_down o)) None
  end.

Definition client_logs (ev : list ClientEvent) : list string :=
  omap (λ e, match e with ClientLog msg => Some msg | _ => None end) ev.

Definition touches_p2 (e : ClientEvent) : bool :=
  match e with
  | GoStreamCopy _ _ | Copy _ _ | CloseEnd P2 => true
  | _ => false
  end.

(** The mode names that stand for a profile. *)
Definition profile_names : list string := ["normal"; "fast"; "fast2"; "fast3"].

(** The calls of a [createConn] trace, its log lines left out. *)
Definition calls (ev : list ConnEvent) : list ConnEvent :=
  omap (λ e, match e with ConnLog _ => None | _ => Some e end) ev.

(** The events of a [handleClient] trace that are not log lines. *)
Definition client_actions (ev : list ClientEvent) : list ClientEvent :=
  omap (λ e, match e with ClientLog _ => None | _ => Some e end) ev.

(** ** Statements compared with the code *)

(** The cipher table as the specification words it: the constructor and
    the number of leading key bytes for every enumerated name, [None] for
    the name that yields no cipher object. *)
Definition crypt_table : list (string * option (cipher * nat)) :=
  [ ("aes", Some (AES, 32%nat));
    ("aes-128", Some (AES, 16%nat));
    ("aes-192", Some (AES, 24%nat));
    ("sm4", Some (SM4, 16%nat));
    ("tea", Some (TEA, 16%nat));
    ("xtea", Some (XTEA, 16%nat));
    ("cast5", Some (Cast5, 16%nat));
    ("3des", Some (TripleDES, 24%nat));
    ("salsa20", Some (Salsa20, 32%nat));
    ("blowfish", Some (Blowfish, 32%nat));
    ("twofish", Some (Twofish, 32%nat));
    ("xor", Some (SimpleXOR, 32%nat));
    ("none", Some (NoneCipher, 32%nat));
    ("null", None) ].

Definition table_block (pass : list byte) (e : option (cipher * nat))
  : option BlockCrypt :=
  match e with
  | Some (a, n) => Some (mkBlock a (take n pass))
  | None => None
  end.

(** What the specification expects of a recognized command: [SetFEC] on
    every non-null slot of [connes], in slot order. *)
Definition fec_calls (connes : list (option UDPSession)) (ds ps : Z)
  : list Event :=
  (λ u, SetFEC u ds ps) <$> omap id connes.

(** An observation under which an iteration of the accept loop cannot
    end the process: the accept succeeded and [waitConn] returns. *)
Definition obs_fine (o : AcceptObs) : bool :=
  negb (accept_err o) &&
  match dial o with DialReturns _ => true | DialFatal _ => false end.

(** The first specification sentence on the scavenger channel, as it is
    worded: once an item was sent in a run, no accept after that run is
    given the item's session. *)
Definition never_reused (config : Config) : Prop :=
  ∀ os1 os2 st1 item i,
    result (acceptor config os1) = Ok st1 →
    ChanSend item ∈ trace (acceptor config os1) →
    GoHandleClient i (session item) ∉ trace (acceptor_run config st1 os2).

(** What keeps the pool's arrays and counters in shape. *)
Record pool_wf (st : Pool) : Prop := mkWf {
  wf_numconn : 0 ≤ numconn st < 2 ^ 16;
  wf_rr : 0 ≤ rr st < 2 ^ 16;
  wf_muxes : length (muxes st) = Z.to_nat (numconn st);
  wf_connes : length (connes st) = Z.to_nat (numconn st);
  wf_allocated : ∀ i m s,
    muxes st !! i = Some m → session m = Some s → (s < allocated st)%nat;
  wf_distinct : ∀ i j m m' s,
    muxes st !! i = Some m → muxes st !! j = Some m' →
    session m = Some s → session m' = Some s → i = j
}.

(** Session [s] was dialed before and is in no slot. *)
Definition retired (s : Session) (st : Pool) : Prop :=
  (s < allocated st)%nat ∧
  ∀ i m, muxes st !! i = Some m → session m ≠ Some s.

(** What a tick does with entry [k] according to the specification. *)
Inductive fate := NormallyClosed | ClosedByTTL | Kept.

Definition fate_of (closed : nat → bool) (now : nat → Time)
    (k : nat) (s : timedSession) : fate :=
  if closed k then NormallyClosed
  else if expiryDate s <? now k then ClosedByTTL
  else Kept.

Definition fate_events (f : fate) (s : timedSession) : list Event :=
  match f, session s with
  | NormallyClosed, _ => [Log "scavenger: session normally closed:" []]
  | ClosedByTTL, Some p =>
      [SessionClose p; Log "scavenger: session closed due to ttl:" []]
  | _, _ => []
  end.

Definition tick_kept (closed : nat → bool) (now : nat → Time)
    (l : list timedSession) : list timedSession :=
  omap id (imap (λ k s, match fate_of closed now k s with
                        | Kept => Some s
                        | _ => None
                        end) l).

Definition tick_events (closed : nat → bool) (now : nat → Time)
    (l : list timedSession) : list Event :=
  mjoin (imap (λ k s, fate_events (fate_of closed now k s) s) l).

(** The pool after [k] accepts when nothing ever goes stale again: the
    first [min k N] slots hold sessions 0, 1, ... in slot order. *)
Definition filled_in_order (N k : nat) (st : Pool) : Prop :=
  pool_wf st ∧
  Z.to_nat (numconn st) = N ∧
  allocated st = (k `min` N)%nat ∧
  ((k < N)%nat → rr st = Z.of_nat k) ∧
  ∀ i m, muxes st !! i = Some m →
         session m = if (i <? k `min` N)%nat then Some i else None.

(** The items a sequence of scavenger inputs receives, in order. *)
Definition recvs (ins : list scav_input) : list timedSession :=
  omap (λ i, match i with Recv item => Some item | Tick _ _ => None end) ins.

(** The sessions a trace calls [Close] on, in order. *)
Definition closes (tr : list Event) : list Session :=
  omap (λ e, match e with SessionClose s => Some s | _ => None end) tr.

(** The events the FIFO reader may produce. *)
Definition fifo_event (e : Event) : Prop :=
  match e with
  | Log _ _ | SetFEC _ _ _ => True
  | _ => False
  end.

(** * The models of [strings.Split], [strings.Contains] *)

Section GoStrings.

Lemma append_cons c s t : String c s +:+ t = String c (s +:+ t).
Proof. reflexivity. Qed.

Lemma append_nil_r s : s +:+ "" = s.
Proof. induction s; [done |]. rewrite append_cons. congruence. Qed.

Lemma append_assoc s1 s2 s3 : (s1 +:+ s2) +:+ s3 = s1 +:+ (s2 +:+ s3).
Proof. induction s1; [done |]. rewrite !append_cons. congruence. Qed.

Lemma split_from_nonempty s : ∀ cur, split_from cur s ≠ [].
Proof.
  induction s as [| c s IH]; intros cur; simpl; [done |].
  destruct (Ascii.eqb c " "); [done | apply IH].
Qed.

(** Joining the fields with single spaces gives the line back. *)
Lemma split_from_join s : ∀ cur,
  String.concat " " (split_from cur s) = cur +:+ s.
Proof.
  induction s as [| c s IH]; intros cur; simpl.
  - by rewrite append_nil_r.
  - destruct (Ascii.eqb_spec c " ") as [-> |].
    + pose proof (split_from_nonempty s "") as Hne.
      specialize (IH ""). destruct (split_from "" s); [done |].
      cbn [String.concat] in *. by rewrite IH.
    + rewrite IH, append_assoc. reflexivity.
Qed.

Lemma Split_space_join s : String.concat " " (Split_space s) = s.
Proof. apply split_from_join. Qed.

Lemma prefix_append a : ∀ s, String.prefix a s = true ↔ ∃ b, s = a +:+ b.
Proof.
  induction a as [| c a IH]; intros [| c' s]; simpl.
  - split; [by exists "" | done].
  - split; [by exists (String c' s) | done].
  - split; [done | by intros [b ?]].
  - destruct (ascii_dec c c') as [-> | Hne].
    + rewrite IH. split; intros [b Hb]; exists b;
        rewrite ?append_cons in *; congruence.
    + split; [done |]. intros [b Hb]. rewrite append_cons in Hb. congruence.
Qed.

(** [Contains] holds exactly of the strings with [substr] inside. *)
Lemma Contains_spec substr s :
  Contains s substr = true ↔ ∃ a b, s = a +:+ substr +:+ b.
Proof.
  induction s as [| c s IH]; cbn [Contains].
  - rewrite orb_false_r, prefix_append. split.
    + intros [b Hb]. by exists "", b.
    + intros ([| c a] & b & Hb); [by exists b | done].
  - rewrite orb_true_iff, prefix_append, IH. split.
    + intros [[b Hb] | (a & b & Hb)].
      * by exists "", b.
      * exists (String c a), b. by rewrite append_cons, Hb.
    + intros ([| c' a] & b & Hb).
      * left. by exists b.
      * right. rewrite append_cons in Hb. injection Hb as _ Hb. by exists a, b.
Qed.

End GoStrings.

(** * Startup *)

Section Startup.

Lemma set_Crypt_same config : set_Crypt config (Crypt config) = config.
Proof. by destruct config. Qed.

Lemma slice_to_in_range {A} (l : list A) n :
  (n ≤ length l)%nat → slice_to l n = Ok (take n l).
Proof.
  intros Hn. unfold slice_to.
  destruct (Nat.leb_spec n (length l)); [done | lia].
Qed.

Lemma take_all {A} (l : list A) n : length l = n → take n l = l.
Proof. intros <-. apply firstn_all. Qed.

(** The check compares with the maximum only. *)
Lemma parameters_check_fatal config :
  parameters_check config = Fatal ↔ maxSmuxVer < SmuxVer config.
Proof.
  unfold parameters_check.
  destruct (Z.ltb_spec maxSmuxVer (SmuxVer config)); split; intros; try done; lia.
Qed.

(** The switch itself never ends the process. *)
Lemma select_crypt_not_fatal config pass : select_crypt config pass ≠ Fatal.
Proof.
  unfold select_crypt.
  repeat match goal with
         | |- context [String.eqb ?a ?b] => destruct (String.eqb a b)
         end;
    try done;
    unfold keyed, slice_to;
    repeat match goal with
           | |- context [(?n <=? ?m)%nat] => destruct (n <=? m)%nat
           end; done.
Qed.

(** Past the check, [block] is what the switch makes of the 32 bytes
    derived from the key with salt "kcp-go" and 4096 rounds. *)
Lemma startup_selects pbkdf2_Key config :
  SmuxVer config ≤ maxSmuxVer →
  startup pbkdf2_Key config
  = select_crypt config
      (pbkdf2_Key (String.list_byte_of_string (Key config))
                  (String.list_byte_of_string "kcp-go") 4096%nat 32%nat).
Proof.
  intros Hv. unfold startup, parameters_check.
  destruct (Z.ltb_spec maxSmuxVer (SmuxVer config)); [lia | done].
Qed.

End Startup.

(** C4 (as amended): startup, from the parameter check to the cipher
    switch, is fatal if and only if the configured mux version is greater
    than [maxSmuxVer] = 2; a version of 0 or below passes the check. *)
Theorem startup_fatal_iff_above_max pbkdf2_Key config :
  (parameters_check config = Fatal ↔ 2 < SmuxVer config) ∧
  (startup pbkdf2_Key config = Fatal ↔ 2 < SmuxVer config).
Proof.
  split; [apply parameters_check_fatal |].
  unfold startup. rewrite <- (parameters_check_fatal config).
  destruct (parameters_check config) eqn:Hc; simpl.
  - split; [| done]. intros H. by apply select_crypt_not_fatal in H.
  - done.
  - unfold parameters_check in Hc. by destruct (maxSmuxVer <? SmuxVer config).
Qed.

(** C4, the claim as stated, fails: with [SmuxVer = 0], which is neither
    1 nor 2, the check passes and startup goes on to build the cipher. *)
Lemma smuxver_zero_passes_startup :
  let config := mkConfig "k" "aes" 1 0 600 10 3 0 "" false in
  ¬ (SmuxVer config = 1 ∨ SmuxVer config = 2) ∧
  parameters_check config = Ok tt ∧
  startup (λ _ _ _ n, replicate n x00) config
  = Ok (config, Some (mkBlock AES (replicate 32 x00))).
Proof.
  split; [| split]; [ | reflexivity | reflexivity].
  simpl. intros [H | H]; discriminate H.
Qed.

(** C9: for a 32-byte derived key, every enumerated name gives the
    cipher and the key prefix of the table ([null] no cipher object,
    [none] the pass-through cipher over the full key) and leaves the
    configuration alone; every other name behaves as [aes] does: AES over
    the full 32 bytes, with the crypt field set to "aes". *)
Theorem select_crypt_table config pass :
  length pass = 32%nat →
  (∀ name e, (name, e) ∈ crypt_table → Crypt config = name →
     select_crypt config pass = Ok (config, table_block pass e) ∧
     (∀ a n, e = Some (a, n) →
        ∃ b, table_block pass e = Some b ∧ algo b = a ∧ length (key b) = n)) ∧
  (∀ name, name ∉ crypt_table.*1 → Crypt config = name →
     select_crypt config pass
     = Ok (set_Crypt config "aes", Some (mkBlock AES pass)) ∧
     select_crypt config pass
     = select_crypt (set_Crypt config "aes") pass).
Proof.
  intros Hlen. split.
  - intros name e Hin Hname.
    assert (H16 : slice_to pass 16 = Ok (take 16 pass))
      by (apply slice_to_in_range; lia).
    assert (H24 : slice_to pass 24 = Ok (take 24 pass))
      by (apply slice_to_in_range; lia).
    assert (H32 : take 32 pass = pass) by by apply take_all.
    unfold crypt_table in Hin.
    repeat (apply elem_of_cons in Hin as [Hin | Hin];
            [injection Hin as -> -> |]); [.. | by apply elem_of_nil in Hin].
    all: (split;
          [ unfold select_crypt; rewrite Hname; simpl;
            rewrite ?H16, ?H24, ?H32; simpl;
            rewrite <- ?Hname, ?set_Crypt_same; reflexivity
          | intros a n [= <- <-]; eexists; split; [reflexivity |];
            simpl; split; [done |]; rewrite length_take; lia ]) ||
         (split; [ unfold select_crypt; rewrite Hname; reflexivity | done ]).
  - intros name Hnot Hname.
    assert (Hne : ∀ s, s ∈ crypt_table.*1 → String.eqb (Crypt config) s = false).
    { intros s Hs. apply String.eqb_neq. rewrite Hname. by intros ->. }
    assert (Hd : select_crypt config pass
                 = Ok (set_Crypt config "aes", Some (mkBlock AES pass))).
    { unfold select_crypt.
      rewrite !Hne by (simpl; repeat constructor). reflexivity. }
    split; [exact Hd |]. by rewrite Hd.
Qed.

Lemma select_crypt_table_witness :
  select_crypt (mkConfig "k" "3des" 1 0 600 10 3 1 "" false)
               (replicate 32 x07)
  = Ok (mkConfig "k" "3des" 1 0 600 10 3 1 "" false,
        Some (mkBlock TripleDES (replicate 24 x07))).
Proof.
  refine (proj1 (proj1 (select_crypt_table
            (mkConfig "k" "3des" 1 0 600 10 3 1 "" false) (replicate 32 x07)
            eq_refl) "3des" (Some (TripleDES, 24%nat)) _ eq_refl)).
  unfold crypt_table. repeat constructor.
Defined.

(** * Laws of the trace monad *)

Lemma run_eta {A} (m : run A) : mkRun (trace m) (result m) = m.
Proof. by destruct m. Qed.

Section RunLaws.

Context {A B : Type}.

Lemma andThen_ret (a : A) (k : A → run B) : andThen (ret a) k = k a.
Proof. unfold andThen; simpl. apply run_eta. Qed.

Lemma andThen_lift_ok (a : A) (k : A → run B) : andThen (lift (Ok a)) k = k a.
Proof. apply andThen_ret. Qed.

Lemma andThen_ok (m : run A) (k : A → run B) a :
  result m = Ok a →
  andThen m k = mkRun (trace m ++ trace (k a)) (result (k a)).
Proof. intros H. unfold andThen. by rewrite H. Qed.

Lemma andThen_trace (m : run A) (k : A → run B) :
  trace (andThen m k)
  = trace m ++ match result m with Ok a => trace (k a) | _ => [] end.
Proof. unfold andThen. destruct (result m); simpl; by rewrite ?app_nil_r. Qed.

Lemma andThen_result_ok (m : run A) (k : A → run B) b :
  result (andThen m k) = Ok b →
  ∃ a, result m = Ok a ∧ result (k a) = Ok b.
Proof. unfold andThen. destruct (result m); simpl; eauto; discriminate. Qed.

End RunLaws.

Lemma andThen_emit {B} (e : Event) (k : unit → run B) :
  andThen (emit e) k = mkRun (e :: trace (k tt)) (result (k tt)).
Proof. reflexivity. Qed.

(** * The control FIFO reader *)

Section Fifo.

Implicit Types (config : Config) (connes : list (option UDPSession)).

Lemma set_fec_all_calls connes ds ps :
  set_fec_all connes ds ps = mkRun (fec_calls connes ds ps) (Ok tt).
Proof.
  induction connes as [| [u |] connes IH]; simpl.
  - reflexivity.
  - rewrite andThen_emit, IH. reflexivity.
  - exact IH.
Qed.

(** The value [Atoi] returns with each kind of error. *)
Lemma parse_digits_error s : ∀ n v,
  0 ≤ n →
  (parse_digits n s = (v, Some ErrSyntax) → v = 0) ∧
  (parse_digits n s = (v, Some ErrRange) → v = maxUint64) ∧
  (parse_digits n s = (v, None) → 0 ≤ v ≤ maxUint64 ∨ v = n).
Proof.
  induction s as [| c s IH]; intros n v Hn; simpl.
  - repeat split; intros [= <-]; auto.
  - destruct (digit c) as [d |] eqn:Hd.
    + assert (0 ≤ d).
      { unfold digit in Hd.
        destruct (_ && _) eqn:E in Hd; [| done].
        injection Hd as <-. apply andb_prop in E as [E _]. lia. }
      destruct (maxUint64 / 10 + 1 <=? n).
      { repeat split; intros [= <-]; auto. }
      destruct (Z.ltb_spec maxUint64 (n * 10 + d)).
      { repeat split; intros [= <-]; auto. }
      destruct (IH (n * 10 + d) v ltac:(lia)) as (H1 & H2 & H3).
      repeat split; auto. intros H4. destruct (H3 H4); [auto | left; lia].
    + repeat split; intros [= <-]; auto.
Qed.

Lemma Atoi_error t :
  ((Atoi t).2 = Some ErrSyntax → (Atoi t).1 = 0) ∧
  ((Atoi t).2 = Some ErrRange →
     (Atoi t).1 = maxInt64 ∨ (Atoi t).1 = minInt64) ∧
  minInt64 ≤ (Atoi t).1 ≤ maxInt64.
Proof.
  unfold Atoi, ParseInt, maxInt64, minInt64.
  destruct t as [| c t]; [simpl; repeat split; (done || lia) |].
  cbv zeta.
  set (body := if (_ || _)%bool then t else String c t).
  destruct (ParseUint body) as [un e] eqn:HP.
  assert (Hun : e ≠ Some ErrSyntax → 0 ≤ un ≤ maxUint64).
  { unfold ParseUint in HP. destruct body as [| c' b'] eqn:Hb.
    - injection HP as <- <-. done.
    - destruct (parse_digits_error (String c' b') 0 un ltac:(lia))
        as (_ & H2 & H3).
      destruct e as [[] |]; [done | |]; intros _.
      + rewrite (H2 HP). unfold maxUint64. lia.
      + destruct (H3 HP); [done | unfold maxUint64; lia]. }
  destruct e as [[] |]; [simpl; repeat split; (done || lia) | |];
    specialize (Hun ltac:(done));
    destruct (Ascii.eqb c "-"); simpl.
  all: repeat match goal with
           | |- context [?a <=? ?b] => destruct (Z.leb_spec a b)
           | |- context [?a <? ?b] => destruct (Z.ltb_spec a b)
           end; simpl; repeat split; intros; try done; try lia; auto.
Qed.

(** The handler against the fields of its line. *)
Lemma fifo_line_fields config connes line t0 rest :
  Split_space line = t0 :: rest →
  fifo_line config connes line
  = if Contains t0 "fec" then
      match rest with
      | [] => panic (IndexOutOfRange 1 1)
      | [_] => panic (IndexOutOfRange 2 2)
      | t1 :: t2 :: _ =>
          if negb ((Atoi t1).1 =? DataShard config)
             || negb ((Atoi t2).1 =? ParityShard config)
          then mkRun (Log "ds: ps:" [(Atoi t1).1; (Atoi t2).1]
                        :: fec_calls connes (Atoi t1).1 (Atoi t2).1)
                     (Ok (set_shards config (Atoi t1).1 (Atoi t2).1))
          else ret config
      end
    else mkRun [Log "Unknown call" []] (Ok config).
Proof.
  intros Hsplit. unfold fifo_line, index. rewrite Hsplit. simpl.
  rewrite andThen_lift_ok.
  destruct (Contains t0 "fec"); [| reflexivity].
  destruct rest as [| t1 [| t2 rest]]; [reflexivity .. |]. simpl.
  rewrite !andThen_lift_ok.
  destruct (negb _ || negb _); [| reflexivity].
  rewrite andThen_emit, set_fec_all_calls. simpl. by rewrite app_nil_r.
Qed.

(** A line never has an empty list of fields. *)
Lemma Split_space_fields line : ∃ t0 rest, Split_space line = t0 :: rest.
Proof.
  pose proof (split_from_nonempty line "") as Hne. unfold Split_space.
  destruct (split_from "" line) as [| t0 rest]; [done | eauto].
Qed.

End Fifo.

(** Every recognized line with fewer than three fields stops the reader. *)
Lemma fifo_short_fec_panics config connes line t0 rest reads :
  Split_space line = t0 :: rest →
  Contains t0 "fec" = true →
  (length rest < 2)%nat →
  ∃ p, fifo_line config connes line = panic p ∧
       fifo_reader config connes (ReadLine line :: reads) = panic p.
Proof.
  intros Hsplit Hc Hlen.
  pose proof (fifo_line_fields config connes line t0 rest Hsplit) as Heq.
  rewrite Hc in Heq. cbn [fifo_reader].
  destruct rest as [| t1 [| t2 rest]]; [| | simpl in Hlen; lia];
    eexists; rewrite Heq; split; reflexivity.
Qed.

(** C2: the line [fec] alone is recognized as the command and has one
    field, so [message[1]] is out of range: the run-time panic ends the
    reader (and the process) instead of logging and ignoring the line, and
    no later line is read. *)
Theorem fifo_fec_without_fields_panics config connes reads :
  fifo_line config connes "fec" = panic (IndexOutOfRange 1 1) ∧
  fifo_line config connes "fec 5" = panic (IndexOutOfRange 2 2) ∧
  fifo_reader config connes (ReadLine "fec" :: reads)
  = panic (IndexOutOfRange 1 1).
Proof. repeat split. Qed.

(** C3 (as amended): a line is handled as the command exactly when its
    first field contains [fec]; any other line logs "Unknown call" and
    changes nothing.  For a line so recognized that has at least three
    fields, with [ds] and [ps] what [Atoi] returns for fields 1 and 2: if
    they equal the current shard counts nothing is changed and nothing is
    called, otherwise the configuration takes them and [SetFEC(ds, ps)]
    is called on every non-null slot.  [Atoi] returns 0 for a field with a
    syntax error and the largest or smallest [int] for a numeral out of
    range. *)
Theorem fifo_fec_command config connes line t0 rest :
  Split_space line = t0 :: rest →
  (Contains t0 "fec" = false →
     fifo_line config connes line = mkRun [Log "Unknown call" []] (Ok config)) ∧
  (Contains t0 "fec" = true → ∀ t1 t2 rest', rest = t1 :: t2 :: rest' →
     let ds := (Atoi t1).1 in
     let ps := (Atoi t2).1 in
     (ds = DataShard config ∧ ps = ParityShard config →
        fifo_line config connes line = ret config) ∧
     (¬ (ds = DataShard config ∧ ps = ParityShard config) →
        fifo_line config connes line
        = mkRun (Log "ds: ps:" [ds; ps] :: fec_calls connes ds ps)
                (Ok (set_shards config ds ps)) ∧
        DataShard (set_shards config ds ps) = ds ∧
        ParityShard (set_shards config ds ps) = ps)) ∧
  (∀ t, (Atoi t).2 = Some ErrSyntax → (Atoi t).1 = 0) ∧
  (∀ t, (Atoi t).2 = Some ErrRange →
        (Atoi t).1 = maxInt64 ∨ (Atoi t).1 = minInt64).
Proof.
  intros Hsplit. rewrite (fifo_line_fields _ _ _ _ _ Hsplit).
  split; [intros Hc; by rewrite Hc |].
  split; [| split; intros t; apply Atoi_error].
  intros Hc t1 t2 rest' -> ds ps. rewrite Hc. fold ds ps. split.
  - intros [Hds Hps]. by rewrite Hds, Hps, !Z.eqb_refl.
  - intros Hne.
    destruct (Z.eqb_spec ds (DataShard config));
      destruct (Z.eqb_spec ps (ParityShard config)); simpl; try done.
    exfalso. by apply Hne.
Qed.

Lemma fifo_fec_command_witness :
  fifo_line default_config [Some 0%nat; None; Some 2%nat] "fec 20 5"
  = mkRun [Log "ds: ps:" [20; 5]; SetFEC 0%nat 20 5; SetFEC 2%nat 20 5]
          (Ok (set_shards default_config 20 5)).
Proof.
  refine (proj1 (proj2 (proj1 (proj2 (fifo_fec_command default_config
            [Some 0%nat; None; Some 2%nat] "fec 20 5" "fec" ["20"; "5"]
            eq_refl)) eq_refl "20" "5" [] eq_refl) _)).
  simpl. intros [H _]. discriminate H.
Defined.

(** C3, the claim as stated, fails: a line whose first field is not
    [fec] but contains it is handled as the command, and a numeric field
    that fails to parse because it is out of range is not treated as
    zero. *)
Lemma fifo_fec_substring_and_range :
  Split_space "xfecx 7 2" = ["xfecx"; "7"; "2"] ∧
  "xfecx" ≠ "fec" ∧
  fifo_line default_config [Some 0%nat] "xfecx 7 2"
  = mkRun [Log "ds: ps:" [7; 2]; SetFEC 0%nat 7 2]
          (Ok (set_shards default_config 7 2)) ∧
  Atoi "99999999999999999999" = (9223372036854775807, Some ErrRange) ∧
  fifo_line default_config [] "fec 99999999999999999999 3"
  = mkRun [Log "ds: ps:" [9223372036854775807; 3]]
          (Ok (set_shards default_config 9223372036854775807 3)).
Proof. repeat split. discriminate. Qed.

(** * The listener goroutine *)

Section Listener.

Variable config : Config.
Implicit Types (st : Pool) (o : AcceptObs) (os : list AcceptObs).

Lemma reconnecting_eq n :
  reconnecting n = mkRun (replicate n (Log "re-connecting:" [])) (Ok tt).
Proof.
  induction n as [| n IH]; simpl; [reflexivity |].
  by rewrite andThen_emit, IH.
Qed.

Lemma refill_eq st idx o :
  refill config st idx o =
  match dial o with
  | DialReturns n =>
      let m' := mkTimed (Some (allocated st))
                  (now_fill o + seconds (AutoExpire config)) in
      mkRun (replicate n (Log "re-connecting:" []) ++
             (if 0 <? AutoExpire config then [ChanSend m'] else []))
            (Ok (mkPool (numconn st) (<[idx := m']> (muxes st))
                        (<[idx := Some (allocated st)]> (connes st))
                        (rr st) (S (allocated st))))
  | DialFatal n => mkRun (replicate n (Log "re-connecting:" [])) Fatal
  end.
Proof.
  unfold refill, waitConn.
  destruct (dial o) as [n | n]; rewrite reconnecting_eq.
  - destruct (0 <? AutoExpire config); unfold andThen; cbn;
      by rewrite ?app_nil_r.
  - unfold andThen; cbn. by rewrite app_nil_r.
Qed.

(** One iteration, with its trace and outcome written out. *)
Lemma acceptor_step_eq st o :
  let idx := Z.to_nat (rr st mod numconn st) in
  acceptor_step config st o =
  if accept_err o then fatal
  else if numconn st =? 0 then panic DivideByZero
  else match muxes st !! idx with
       | None => panic (IndexOutOfRange idx (length (muxes st)))
       | Some m =>
           if stale config m o then
             match dial o with
             | DialReturns n =>
                 let m' := mkTimed (Some (allocated st))
                             (now_fill o + seconds (AutoExpire config)) in
                 mkRun (replicate n (Log "re-connecting:" []) ++
                        (if 0 <? AutoExpire config then [ChanSend m'] else []) ++
                        [GoHandleClient idx (Some (allocated st))])
                       (Ok (mkPool (numconn st) (<[idx := m']> (muxes st))
                                   (<[idx := Some (allocated st)]> (connes st))
                                   (uint16 (rr st + 1)) (S (allocated st))))
             | DialFatal n =>
                 mkRun (replicate n (Log "re-connecting:" [])) Fatal
             end
           else
             mkRun [GoHandleClient idx (session m)]
                   (Ok (mkPool (numconn st) (muxes st) (connes st)
                               (uint16 (rr st + 1)) (allocated st)))
       end.
Proof.
  intros idx. unfold acceptor_step. fold idx.
  destruct (accept_err o); [reflexivity |].
  destruct (numconn st =? 0); [reflexivity |].
  unfold index at 1.
  destruct (muxes st !! idx) as [m |] eqn:Hm; [| reflexivity].
  rewrite andThen_lift_ok.
  destruct (stale config m o).
  - rewrite refill_eq. apply lookup_lt_Some in Hm as Hlt.
    destruct (dial o) as [n | n]; [| reflexivity].
    unfold andThen at 1. cbn [result trace].
    unfold index. cbn [muxes]. rewrite list_lookup_insert_eq by done.
    rewrite andThen_lift_ok, andThen_emit. cbn.
    by rewrite <- app_assoc.
  - rewrite andThen_ret. unfold index. rewrite Hm.
    rewrite andThen_lift_ok. reflexivity.
Qed.

Lemma listener_start_wf : pool_wf (listener_start config).
Proof.
  assert (0 ≤ uint16 (Conn config) < 2 ^ 16) by (apply Z.mod_pos_bound; lia).
  split; simpl; try done; try lia; try apply length_replicate.
  - intros i m s [-> _]%lookup_replicate. discriminate.
  - intros i j m m' s [-> _]%lookup_replicate. discriminate.
Qed.

Lemma slot_in_range st :
  pool_wf st → numconn st ≠ 0 →
  is_Some (muxes st !! Z.to_nat (rr st mod numconn st)).
Proof.
  intros [] Hn. apply lookup_lt_is_Some. rewrite wf_muxes0.
  pose proof (Z.mod_pos_bound (rr st) (numconn st)). lia.
Qed.

Lemma acceptor_step_wf st o st1 :
  pool_wf st → result (acceptor_step config st o) = Ok st1 → pool_wf st1.
Proof.
  intros Hwf. rewrite acceptor_step_eq. cbv zeta.
  destruct (accept_err o); [done |].
  destruct (numconn st =? 0); [done |].
  set (idx := Z.to_nat _).
  destruct (muxes st !! idx) as [m |] eqn:Hm; [| done].
  assert (Hrr : 0 ≤ uint16 (rr st + 1) < 2 ^ 16)
    by (apply Z.mod_pos_bound; lia).
  destruct Hwf.
  destruct (stale config m o).
  - destruct (dial o); [| done]. intros [= <-].
    apply lookup_lt_Some in Hm as Hlt.
    split; cbn [numconn muxes connes rr allocated];
      rewrite ?length_insert; try done.
    + intros i m0 s H0 Hs. destruct (decide (i = idx)) as [-> |].
      * rewrite list_lookup_insert_eq in H0 by done.
        injection H0 as <-. injection Hs as <-. lia.
      * rewrite list_lookup_insert_ne in H0 by done.
        pose proof (wf_allocated0 _ _ _ H0 Hs). lia.
    + intros i j m1 m2 s H1 H2 Hs1 Hs2.
      destruct (decide (i = idx)) as [-> |];
        destruct (decide (j = idx)) as [-> |]; try done.
      * rewrite list_lookup_insert_eq in H1 by done.
        rewrite list_lookup_insert_ne in H2 by done.
        injection H1 as <-. injection Hs1 as <-.
        pose proof (wf_allocated0 _ _ _ H2 Hs2). lia.
      * rewrite list_lookup_insert_ne in H1 by done.
        rewrite list_lookup_insert_eq in H2 by done.
        injection H2 as <-. injection Hs2 as <-.
        pose proof (wf_allocated0 _ _ _ H1 Hs1). lia.
      * rewrite list_lookup_insert_ne in H1, H2 by done. eauto.
  - intros [= <-]. by split.
Qed.

Lemma acceptor_run_wf os : ∀ st st1,
  pool_wf st → result (acceptor_run config st os) = Ok st1 → pool_wf st1.
Proof.
  induction os as [| o os IH]; intros st st1 Hwf; simpl.
  - by intros [= <-].
  - intros H. apply andThen_result_ok in H as (st' & H1 & H2).
    eauto using acceptor_step_wf.
Qed.

Lemma acceptor_wf os st :
  result (acceptor config os) = Ok st → pool_wf st.
Proof. apply acceptor_run_wf, listener_start_wf. Qed.

(** An iteration on a fine observation goes through. *)
Lemma acceptor_step_ok st o :
  pool_wf st → numconn st ≠ 0 → obs_fine o = true →
  ∃ st1, result (acceptor_step config st o) = Ok st1.
Proof.
  intros Hwf Hn [Hacc Hdial]%andb_prop.
  rewrite acceptor_step_eq. cbv zeta.
  destruct (accept_err o); [done |].
  destruct (Z.eqb_spec (numconn st) 0); [done |].
  destruct (slot_in_range st Hwf Hn) as [m ->].
  destruct (stale config m o); [| eauto].
  destruct (dial o); [eauto | done].
Qed.

(** The [handleClient] an iteration spawns, and the counter after it. *)
Lemma acceptor_step_handled st o :
  match result (acceptor_step config st o) with
  | Ok st1 =>
      (∃ s, handled (trace (acceptor_step config st o))
            = [(Z.to_nat (rr st mod numconn st), s)]) ∧
      numconn st ≠ 0 ∧
      numconn st1 = numconn st ∧
      rr st1 = uint16 (rr st + 1)
  | _ => handled (trace (acceptor_step config st o)) = []
  end.
Proof.
  assert (Hlog : ∀ n, handled (replicate n (Log "re-connecting:" [])) = []).
  { intros n. unfold handled. induction n; simpl; auto. }
  rewrite acceptor_step_eq. cbv zeta.
  destruct (accept_err o); [done |].
  destruct (Z.eqb_spec (numconn st) 0); [done |].
  destruct (muxes st !! _) as [m |]; [| done].
  destruct (stale config m o).
  - destruct (dial o); cbn [trace result]; [| apply Hlog].
    unfold handled in *. rewrite !omap_app, Hlog.
    destruct (0 <? AutoExpire config); simpl; eauto.
  - simpl. eauto.
Qed.

Lemma acceptor_run_handled os : ∀ st k0 j i s,
  0 ≤ numconn st →
  rr st = Z.of_nat k0 mod 2 ^ 16 →
  handled (trace (acceptor_run config st os)) !! j = Some (i, s) →
  Z.of_nat i = (Z.of_nat (k0 + j) mod 2 ^ 16) mod numconn st.
Proof.
  induction os as [| o os IH]; intros st k0 j i s Hn Hrr; [done |].
  simpl. rewrite andThen_trace. unfold handled. rewrite omap_app.
  fold (handled (trace (acceptor_step config st o))).
  pose proof (acceptor_step_handled st o) as Hstep.
  destruct (result (acceptor_step config st o)) as [st1 | |];
    [| rewrite Hstep; done ..].
  destruct Hstep as ([s0 ->] & Hn0 & Hn1 & Hrr1).
  destruct j as [| j]; simpl.
  - intros [= <- <-]. rewrite Nat.add_0_r, <- Hrr.
    pose proof (Z.mod_pos_bound (rr st) (numconn st)). lia.
  - intros Hj. rewrite <- Hn1.
    replace (k0 + S j)%nat with (S k0 + j)%nat by lia.
    apply (IH st1 (S k0) j i s); [lia | | exact Hj].
    rewrite Hrr1, Hrr. unfold uint16.
    rewrite Zplus_mod_idemp_l. f_equal. lia.
Qed.

Lemma acceptor_run_complete os : ∀ st,
  pool_wf st → numconn st ≠ 0 → Forall (λ o, obs_fine o = true) os →
  is_ok (result (acceptor_run config st os)) = true ∧
  length (handled (trace (acceptor_run config st os))) = length os.
Proof.
  induction os as [| o os IH]; intros st Hwf Hn Hos; [done |].
  apply Forall_cons in Hos as [Ho Hos].
  destruct (acceptor_step_ok st o Hwf Hn Ho) as [st1 Hst1].
  pose proof (acceptor_step_handled st o) as Hstep.
  simpl. rewrite (andThen_ok _ _ st1 Hst1). cbn [trace result].
  rewrite Hst1 in Hstep. destruct Hstep as ([s0 Hs0] & _ & Hn1 & _).
  destruct (IH st1) as [IH1 IH2];
    [by eapply acceptor_step_wf | by rewrite Hn1 | done |].
  split; [done |].
  unfold handled in *. rewrite omap_app, length_app, Hs0, IH2. done.
Qed.

(** Nothing is sent on the channel when auto-expiry is off. *)
Lemma acceptor_run_sends_nothing os : ∀ st,
  AutoExpire config ≤ 0 → sent (trace (acceptor_run config st os)) = [].
Proof.
  assert (Hlog : ∀ n, sent (replicate n (Log "re-connecting:" [])) = []).
  { intros n. unfold sent. induction n; simpl; auto. }
  induction os as [| o os IH]; intros st HAE; [done |].
  simpl. rewrite andThen_trace. unfold sent. rewrite omap_app.
  fold (sent (trace (acceptor_step config st o))).
  assert (Hstep : sent (trace (acceptor_step config st o)) = []).
  { rewrite acceptor_step_eq. cbv zeta.
    destruct (accept_err o); [done |].
    destruct (numconn st =? 0); [done |].
    destruct (muxes st !! _) as [m |]; [| done].
    destruct (stale config m o); [| done].
    destruct (dial o); cbn [trace]; [| apply Hlog].
    destruct (Z.ltb_spec 0 (AutoExpire config)); [lia |].
    unfold sent in *. by rewrite !omap_app, Hlog. }
  rewrite Hstep. simpl.
  destruct (result (acceptor_step config st o)); [by apply IH | done ..].
Qed.

(** Every item sent on the channel carries a session. *)
Lemma acceptor_run_sends_sessions os : ∀ st item,
  ChanSend item ∈ trace (acceptor_run config st os) → session item ≠ None.
Proof.
  induction os as [| o os IH]; intros st item; simpl.
  - by intros ?%elem_of_nil.
  - rewrite andThen_trace. intros [Hin | Hin]%elem_of_app.
    + revert Hin. rewrite acceptor_step_eq. cbv zeta.
      destruct (accept_err o); [by intros ?%elem_of_nil |].
      destruct (numconn st =? 0); [by intros ?%elem_of_nil |].
      destruct (muxes st !! _) as [m |]; [| by intros ?%elem_of_nil].
      destruct (stale config m o).
      * destruct (dial o); cbn [trace].
        -- rewrite !elem_of_app, elem_of_replicate.
           intros [[? _] | [Hin | Hin]]; [done | |].
           ++ destruct (0 <? AutoExpire config);
                [| by apply elem_of_nil in Hin].
              apply list_elem_of_singleton in Hin. by injection Hin as ->.
           ++ by apply list_elem_of_singleton in Hin.
        -- by intros [? _]%elem_of_replicate.
      * by intros ?%list_elem_of_singleton.
    + destruct (result (acceptor_step config st o));
        [by eapply IH | by apply elem_of_nil in Hin ..].
Qed.

(** A retired session stays retired and is given to no handler. *)
Lemma acceptor_step_retired st o s :
  retired s st →
  (∀ i, GoHandleClient i (Some s) ∉ trace (acceptor_step config st o)) ∧
  (∀ st1, result (acceptor_step config st o) = Ok st1 → retired s st1).
Proof.
  intros [Hlt Hout]. rewrite acceptor_step_eq. cbv zeta.
  destruct (accept_err o); [split; [intros i ?%elem_of_nil |]; done |].
  destruct (numconn st =? 0); [split; [intros i ?%elem_of_nil |]; done |].
  set (idx := Z.to_nat _).
  destruct (muxes st !! idx) as [m |] eqn:Hm;
    [| split; [intros i ?%elem_of_nil |]; done].
  destruct (stale config m o).
  - destruct (dial o); cbn [trace result].
    + split.
      * intros i. rewrite !elem_of_app, elem_of_replicate.
        intros [[? _] | [Hin | Hin]]; [done | |].
        -- destruct (0 <? AutoExpire config);
             [by apply list_elem_of_singleton in Hin
             | by apply elem_of_nil in Hin].
        -- apply list_elem_of_singleton in Hin. injection Hin as _ Hs. lia.
      * intros st1 [= <-]. split; cbn [allocated muxes]; [lia |].
        intros i m0 H0. apply lookup_lt_Some in Hm as Hlen.
        destruct (decide (i = idx)) as [-> |].
        -- rewrite list_lookup_insert_eq in H0 by done.
           injection H0 as <-. simpl. intros [= Hs]. lia.
        -- rewrite list_lookup_insert_ne in H0 by done. eauto.
    + split; [by intros i [? _]%elem_of_replicate | done].
  - cbn [trace result]. split.
    + intros i Hin%list_elem_of_singleton. injection Hin as _ Hs.
      by apply (Hout idx m).
    + by intros st1 [= <-].
Qed.

Lemma acceptor_run_retired os : ∀ st s i,
  retired s st → GoHandleClient i (Some s) ∉ trace (acceptor_run config st os).
Proof.
  induction os as [| o os IH]; intros st s i Hret; simpl.
  - by intros ?%elem_of_nil.
  - destruct (acceptor_step_retired st o s Hret) as [H1 H2].
    rewrite andThen_trace. intros [Hin | Hin]%elem_of_app.
    + by apply (H1 i).
    + destruct (result (acceptor_step config st o)) as [st1 | |];
        [| by apply elem_of_nil in Hin ..].
      by apply (IH st1 s i (H2 st1 eq_refl)).
Qed.

End Listener.

Lemma seconds_exact n :
  -9223372036 ≤ n ≤ 9223372036 → seconds n = n * 1000000000.
Proof.
  intros Hn. unfold seconds, int64, Second.
  rewrite (Z.mod_small (n + 2 ^ 63)) by lia.
  replace (n + 2 ^ 63 - 2 ^ 63) with n by lia.
  rewrite Z.mod_small by lia. lia.
Qed.

Section ListenerClaims.

Variable config : Config.
Implicit Types (st : Pool) (o : AcceptObs) (os : list AcceptObs).

Lemma acceptor_run_numconn os : ∀ st st1,
  result (acceptor_run config st os) = Ok st1 → numconn st1 = numconn st.
Proof.
  induction os as [| o os IH]; intros st st1; simpl.
  - by intros [= <-].
  - intros (st' & H1 & H2)%andThen_result_ok.
    pose proof (acceptor_step_handled config st o) as Hstep.
    rewrite H1 in Hstep. destruct Hstep as (_ & _ & Hn & _).
    rewrite <- Hn. by apply IH.
Qed.

(** The iteration that finds the session of its slot stale retires it. *)
Lemma acceptor_step_retires st o m s :
  pool_wf st →
  muxes st !! Z.to_nat (rr st mod numconn st) = Some m →
  session m = Some s →
  stale config m o = true →
  (∀ i, GoHandleClient i (Some s) ∉ trace (acceptor_step config st o)) ∧
  (∀ st1, result (acceptor_step config st o) = Ok st1 → retired s st1).
Proof.
  intros Hwf Hm Hs Hstale. rewrite acceptor_step_eq. cbv zeta.
  destruct (accept_err o); [split; [intros i ?%elem_of_nil |]; done |].
  destruct (numconn st =? 0); [split; [intros i ?%elem_of_nil |]; done |].
  rewrite Hm, Hstale.
  pose proof (wf_allocated st Hwf _ _ _ Hm Hs) as Hlt.
  apply lookup_lt_Some in Hm as Hlen.
  destruct (dial o); cbn [trace result].
  - split.
    + intros i. rewrite !elem_of_app, elem_of_replicate.
      intros [[? _] | [Hin | Hin]]; [done | |].
      * destruct (0 <? AutoExpire config);
          [by apply list_elem_of_singleton in Hin
          | by apply elem_of_nil in Hin].
      * apply list_elem_of_singleton in Hin. injection Hin as _ Hin. lia.
    + intros st1 [= <-]. split; cbn [allocated muxes]; [lia |].
      intros i m0 H0 Hs0.
      destruct (decide (i = Z.to_nat (rr st mod numconn st))) as [-> | Hne].
      * rewrite list_lookup_insert_eq in H0 by done.
        injection H0 as <-. injection Hs0 as Hs0. lia.
      * rewrite list_lookup_insert_ne in H0 by done.
        apply Hne. eapply (wf_distinct st Hwf); eauto.
  - split; [by intros i [? _]%elem_of_replicate | done].
Qed.

(** C1 (as amended): with auto-expiry on, the iteration that dials a
    session sends that session on the scavenger channel and then gives it
    to the handler of the connection just accepted; the session serves
    its slot until an accept finds it stale.  From the iteration that
    finds it stale and replaces it, no accepted connection is given that
    session again. *)
Theorem replaced_session_not_reused :
  0 < AutoExpire config →
  (∀ st o n m,
     accept_err o = false → numconn st ≠ 0 →
     muxes st !! Z.to_nat (rr st mod numconn st) = Some m →
     stale config m o = true → dial o = DialReturns n →
     ∃ m', session m' = Some (allocated st) ∧
           trace (acceptor_step config st o)
           = replicate n (Log "re-connecting:" []) ++
             [ChanSend m';
              GoHandleClient (Z.to_nat (rr st mod numconn st))
                             (Some (allocated st))]) ∧
  (∀ os1 st1 o os2 m s i,
     result (acceptor config os1) = Ok st1 →
     muxes st1 !! Z.to_nat (rr st1 mod numconn st1) = Some m →
     session m = Some s →
     stale config m o = true →
     GoHandleClient i (Some s) ∉ trace (acceptor_run config st1 (o :: os2))).
Proof.
  intros HAE. split.
  - intros st o n m Hacc Hn Hm Hstale Hdial.
    rewrite acceptor_step_eq. cbv zeta.
    rewrite Hacc, Hm, Hstale, Hdial.
    destruct (Z.eqb_spec (numconn st) 0); [done |].
    destruct (Z.ltb_spec 0 (AutoExpire config)); [| lia].
    eexists. split; [| reflexivity]. reflexivity.
  - intros os1 st1 o os2 m s i Hreach Hm Hs Hstale.
    apply acceptor_wf in Hreach.
    destruct (acceptor_step_retires st1 o m s Hreach Hm Hs Hstale) as [H1 H2].
    simpl. rewrite andThen_trace. intros [Hin | Hin]%elem_of_app.
    + by apply (H1 i).
    + destruct (result (acceptor_step config st1 o)) as [st2 | |];
        [| by apply elem_of_nil in Hin ..].
      by apply (acceptor_run_retired config os2 st2 s i (H2 st2 eq_refl)).
Qed.

(** C5: in a reachable pool with at least one slot, an accepted
    connection finds a session in its slot; the slot is refilled exactly
    when it is stale (session null, or reported closed, or auto-expiry on
    and the clock past the slot's expiry): a fresh session is dialed and
    stored with expiry [now + AutoExpire] seconds; otherwise the pool is
    left as it is and the handler is given the session of the slot. *)
Theorem refill_iff_stale os st o :
  result (acceptor config os) = Ok st →
  uint16 (Conn config) ≠ 0 →
  accept_err o = false →
  let idx := Z.to_nat (rr st mod numconn st) in
  ∃ m, muxes st !! idx = Some m ∧
    let is_stale :=
      session m = None ∨ is_closed o = true ∨
      (0 < AutoExpire config ∧ expiryDate m < now_check o) in
    (¬ is_stale →
       acceptor_step config st o
       = mkRun [GoHandleClient idx (session m)]
               (Ok (mkPool (numconn st) (muxes st) (connes st)
                           (uint16 (rr st + 1)) (allocated st)))) ∧
    (is_stale → ∀ n, dial o = DialReturns n →
       let fresh := mkTimed (Some (allocated st))
                      (now_fill o + seconds (AutoExpire config)) in
       ∃ tr st',
         acceptor_step config st o
         = mkRun (tr ++ [GoHandleClient idx (Some (allocated st))]) (Ok st') ∧
         handled tr = [] ∧
         muxes st' = <[idx := fresh]> (muxes st) ∧
         muxes st' !! idx = Some fresh ∧
         connes st' !! idx = Some (Some (allocated st)) ∧
         allocated st' = S (allocated st)) ∧
    (∀ st', result (acceptor_step config st o) = Ok st' →
       allocated st' = S (allocated st) ↔ is_stale) ∧
    (-9223372036 ≤ AutoExpire config ≤ 9223372036 →
       seconds (AutoExpire config) = AutoExpire config * 1000000000).
Proof.
  intros Hreach Hconn Hacc idx.
  pose proof (acceptor_wf config os st Hreach) as Hwf.
  assert (Hn : numconn st ≠ 0).
  { unfold acceptor in Hreach. by rewrite (acceptor_run_numconn _ _ _ Hreach). }
  destruct (slot_in_range st Hwf Hn) as [m Hm]. fold idx in Hm.
  exists m. split; [done |]. intros is_stale.
  assert (Hiff : is_stale ↔ stale config m o = true).
  { unfold is_stale, stale, After. destruct (session m) as [s |].
    - rewrite orb_true_iff, andb_true_iff, Z.ltb_lt, Z.ltb_lt.
      split; [intros [| []] | intros []]; auto; done.
    - split; auto. }
  pose proof (acceptor_step_eq config st o) as Heq. cbv zeta in Heq.
  fold idx in Heq. rewrite Hacc, Hm in Heq.
  destruct (Z.eqb_spec (numconn st) 0); [done |].
  apply lookup_lt_Some in Hm as Hlen.
  destruct (stale config m o) eqn:Hstale.
  - split; [intros Hns; exfalso; by apply Hns, Hiff |].
    split; [| split; [| apply seconds_exact]].
    + intros _ k Hdial. rewrite Hdial in Heq. cbv zeta in Heq.
      rewrite app_assoc in Heq. do 2 eexists. split; [exact Heq |].
      cbn [muxes connes allocated].
      assert (Hlen' : (idx < length (connes st))%nat)
        by (by rewrite (wf_connes st Hwf), <- (wf_muxes st Hwf)).
      rewrite !list_lookup_insert_eq by done.
      split; [| done].
      unfold handled. rewrite omap_app.
      assert (Hlog : ∀ j, handled (replicate j (Log "re-connecting:" [])) = [])
        by (intros j; unfold handled; induction j; simpl; auto).
      unfold handled in Hlog. rewrite Hlog.
      by destruct (0 <? AutoExpire config).
    + intros st' Hst'. rewrite Heq in Hst'.
      destruct (dial o); [| done]. injection Hst' as <-.
      split; [intros _; by apply Hiff | done].
  - split; [done |]. split; [intros Hs; apply Hiff in Hs; done |].
    split; [| apply seconds_exact].
    intros st' Hst'. rewrite Heq in Hst'. injection Hst' as <-. simpl.
    split; [lia | intros Hs; apply Hiff in Hs; done].
Qed.

(** C6 (as amended): the k-th accepted connection is given to slot
    [(k mod 2^16) mod (Conn mod 2^16)], the slot count being the 16-bit
    truncation of [Conn]; this is [(k mod 2^16) mod Conn] when
    [1 ≤ Conn ≤ 65535].  With a non-zero slot count, every accepted
    connection of a run whose accepts and dials all return is dispatched. *)
Theorem round_robin_slot os :
  (∀ k i s,
     handled (trace (acceptor config os)) !! k = Some (i, s) →
     Z.of_nat i = (Z.of_nat k mod 2 ^ 16) mod (Conn config mod 2 ^ 16) ∧
     (1 ≤ Conn config ≤ 65535 →
        Z.of_nat i = (Z.of_nat k mod 2 ^ 16) mod Conn config)) ∧
  (Conn config mod 2 ^ 16 ≠ 0 →
   Forall (λ o, obs_fine o = true) os →
   is_ok (result (acceptor config os)) = true ∧
   length (handled (trace (acceptor config os))) = length os).
Proof.
  split.
  - intros k i s Hk.
    assert (Hi : Z.of_nat i
                 = (Z.of_nat k mod 2 ^ 16) mod (Conn config mod 2 ^ 16)).
    { apply (acceptor_run_handled config os (listener_start config) 0 k i s)
        in Hk; [exact Hk | |  done].
      simpl. unfold uint16.
      pose proof (Z.mod_pos_bound (Conn config) (2 ^ 16)). lia. }
    split; [exact Hi |]. intros Hc. rewrite Hi.
    by rewrite (Z.mod_small (Conn config)) by lia.
  - intros Hc Hos.
    apply acceptor_run_complete; [apply listener_start_wf | done | done].
Qed.

(** C8: with auto-expiry off, no run of the listener sends on the
    scavenger channel, and the scavenger returns at once: it takes no
    input and does nothing. *)
Theorem autoexpire_off_no_scavenging :
  AutoExpire config ≤ 0 →
  (∀ os, sent (trace (acceptor config os)) = []) ∧
  (∀ ins, scavenger config ins = ret (Returned, ins)).
Proof.
  intros HAE. split.
  - intros os. by apply acceptor_run_sends_nothing.
  - intros ins. unfold scavenger.
    destruct (Z.leb_spec (AutoExpire config) 0); [done | lia].
Qed.

(** C10: with [Conn = 0] the slot count is zero; the first accepted
    connection panics on the division [rr % numconn] before any handler
    is started, and no run gives a connection to a handler. *)
Theorem conn_zero_divide_by_zero :
  Conn config = 0 →
  (∀ o os, accept_err o = false →
           acceptor config (o :: os) = panic DivideByZero) ∧
  (∀ os, handled (trace (acceptor config os)) = []).
Proof.
  intros Hc.
  assert (Hstep : ∀ o, acceptor_step config (listener_start config) o
                       = if accept_err o then fatal else panic DivideByZero).
  { intros o. unfold acceptor_step, listener_start. rewrite Hc. simpl.
    by destruct (accept_err o). }
  split.
  - intros o os Hacc. unfold acceptor. simpl. by rewrite Hstep, Hacc.
  - intros [| o os]; [done |]. unfold acceptor. simpl. rewrite Hstep.
    by destruct (accept_err o).
Qed.

End ListenerClaims.

Lemma replaced_session_not_reused_witness :
  GoHandleClient 0 (Some 0%nat) ∉
    trace (acceptor_run (mkConfig "k" "aes" 1 10 600 10 3 1 "" false)
             (mkPool 1 [mkTimed (Some 0%nat) 10000000000] [Some 0%nat] 1 1)
             [mkObs false false 11000000000 (DialReturns 0) 11000000000;
              mkObs false false 12000000000 (DialReturns 0) 12000000000]).
Proof.
  apply (proj2 (replaced_session_not_reused
                  (mkConfig "k" "aes" 1 10 600 10 3 1 "" false) eq_refl)
               [mkObs false false 0 (DialReturns 0) 0]
               (mkPool 1 [mkTimed (Some 0%nat) 10000000000] [Some 0%nat] 1 1)
               (mkObs false false 11000000000 (DialReturns 0) 11000000000)
               [mkObs false false 12000000000 (DialReturns 0) 12000000000]
               (mkTimed (Some 0%nat) 10000000000) 0%nat 0%nat);
    reflexivity.
Defined.

(** C1, the claim as stated, fails: with [AutoExpire = 10] and one slot,
    the session dialed for the first connection is sent on the scavenger
    channel at once, and the connection accepted one second later is
    given that same session. *)
Lemma sent_session_is_reused :
  let config := mkConfig "k" "aes" 1 10 600 10 3 1 "" false in
  0 < AutoExpire config ∧ ¬ never_reused config.
Proof.
  split; [reflexivity |]. intros H.
  apply (H [mkObs false false 0 (DialReturns 0) 0]
           [mkObs false false 1000000000 (DialReturns 0) 1000000000]
           (mkPool 1 [mkTimed (Some 0%nat) 10000000000] [Some 0%nat] 1 1)
           (mkTimed (Some 0%nat) 10000000000) 0%nat).
  - reflexivity.
  - vm_compute. constructor.
  - vm_compute. constructor.
Qed.

Lemma refill_iff_stale_witness :
  ∃ m, muxes (listener_start default_config) !! 0%nat = Some m.
Proof.
  destruct (refill_iff_stale default_config [] (listener_start default_config)
              (mkObs false false 0 (DialReturns 0) 0)
              eq_refl ltac:(by vm_compute) eq_refl) as (m & Hm & _).
  exists m. exact Hm.
Defined.

Lemma round_robin_slot_witness :
  Z.of_nat 1 = (Z.of_nat 4 mod 2 ^ 16) mod 3.
Proof.
  refine (proj2 (proj1 (round_robin_slot
            (mkConfig "k" "aes" 3 0 600 10 3 1 "" false)
            (replicate 5 (mkObs false false 0 (DialReturns 0) 0)))
          4%nat 1%nat (Some 1%nat) eq_refl) _).
  simpl. lia.
Defined.

(** C6, the claim as stated, fails: with [Conn = 65537] the slot count
    is [uint16(65537) = 1], so the second accepted connection (k = 1)
    goes to slot 0, not to slot [(1 mod 2^16) mod 65537 = 1]. *)
Lemma conn_65537_has_one_slot :
  let config := mkConfig "k" "aes" 65537 0 600 10 3 1 "" false in
  let o := mkObs false false 0 (DialReturns 0) 0 in
  handled (trace (acceptor config [o; o])) !! 1%nat
  = Some (0%nat, Some 0%nat) ∧
  (Z.of_nat 1 mod 2 ^ 16) mod Conn config = 1.
Proof. split; reflexivity. Qed.

Lemma autoexpire_off_no_scavenging_witness :
  sent (trace (acceptor default_config
                 [mkObs false false 0 (DialReturns 1) 0])) = [] ∧
  scavenger default_config [Tick (λ _, false) (λ _, 0)]
  = ret (Returned, [Tick (λ _, false) (λ _, 0)]).
Proof.
  destruct (autoexpire_off_no_scavenging default_config ltac:(by vm_compute))
    as [H1 H2].
  split; [apply H1 | apply H2].
Defined.

Lemma conn_zero_divide_by_zero_witness :
  acceptor (mkConfig "k" "aes" 0 0 600 10 3 1 "" false)
           [mkObs false false 0 (DialReturns 0) 0]
  = panic DivideByZero.
Proof.
  apply (proj1 (conn_zero_divide_by_zero
                  (mkConfig "k" "aes" 0 0 600 10 3 1 "" false) eq_refl)).
  reflexivity.
Defined.

(** * The scavenger goroutine *)

Section Scavenger.

Variable config : Config.
Implicit Types (l : list timedSession) (closed : nat → bool) (now : nat → Time).

(** The loop of a tick from entry [k] on, against the fate of each entry. *)
Lemma sweep_fates closed now l : ∀ k newList,
  Forall (λ s, session s ≠ None) l →
  sweep closed now k l newList
  = mkRun
      (mjoin (imap (λ j s, fate_events (fate_of closed now (k + j) s) s) l))
      (Ok (newList ++
           omap id (imap (λ j s, match fate_of closed now (k + j) s with
                                 | Kept => Some s
                                 | _ => None
                                 end) l))).
Proof.
  induction l as [| s l IH]; intros k newList Hl.
  - simpl. by rewrite app_nil_r.
  - apply Forall_cons in Hl as [Hs Hl].
    assert (Hev : imap ((λ j s, fate_events (fate_of closed now (k + j) s) s)
                          ∘ S) l
                  = imap (λ j s, fate_events (fate_of closed now (S k + j) s) s)
                         l).
    { apply imap_ext. intros j x _. simpl. by rewrite Nat.add_succ_r. }
    assert (Hkp : imap ((λ j s, match fate_of closed now (k + j) s with
                                | Kept => Some s
                                | _ => None
                                end) ∘ S) l
                  = imap (λ j s, match fate_of closed now (S k + j) s with
                                 | Kept => Some s
                                 | _ => None
                                 end) l).
    { apply imap_ext. intros j x _. simpl. by rewrite Nat.add_succ_r. }
    cbn [sweep imap]. rewrite Hev, Hkp, Nat.add_0_r.
    destruct (session s) as [p |] eqn:Hp; [| done].
    unfold fate_of at 1 3, After.
    destruct (closed k).
    + rewrite andThen_emit, (IH (S k) newList Hl). reflexivity.
    + destruct (expiryDate s <? now k).
      * rewrite !andThen_emit, (IH (S k) newList Hl).
        simpl. rewrite Hp. reflexivity.
      * rewrite (IH (S k) (newList ++ [s]) Hl). simpl.
        by rewrite <- app_assoc.
Qed.

(** A tick keeps entries of the list only. *)
Lemma tick_kept_sessions closed now l :
  Forall (λ s, session s ≠ None) l →
  Forall (λ s, session s ≠ None) (tick_kept closed now l).
Proof.
  rewrite !Forall_forall. intros Hl s Hin. apply Hl.
  unfold tick_kept in Hin.
  apply list_elem_of_omap in Hin as (x & Hx & Hs). simpl in Hs. subst x.
  apply elem_of_lookup_imap in Hx as (j & y & Hy & Hj).
  destruct (fate_of closed now j y); try done.
  injection Hy as ->. by eapply list_elem_of_lookup_2.
Qed.

Lemma scavenger_tick_eq l closed now :
  Forall (λ s, session s ≠ None) l →
  scavenger_step config l (Tick closed now)
  = mkRun (tick_events closed now l) (Ok (tick_kept closed now l)).
Proof.
  intros Hl. destruct l as [| s l]; [reflexivity |].
  cbn [scavenger_step length Nat.eqb]. by rewrite sweep_fates.
Qed.

(** Fed with items that carry sessions, the loop never panics and its
    list holds entries with sessions only. *)
Lemma scavenger_loop_runs ins : ∀ l,
  Forall (λ s, session s ≠ None) l →
  Forall (λ i, match i with
               | Recv item => session item ≠ None
               | Tick _ _ => True
               end) ins →
  ∃ l', result (scavenger_loop config l ins) = Ok l' ∧
        Forall (λ s, session s ≠ None) l'.
Proof.
  induction ins as [| i ins IH]; intros l Hl Hins; [by exists l |].
  apply Forall_cons in Hins as [Hi Hins]. cbn [scavenger_loop].
  destruct i as [item | closed now].
  - cbn [scavenger_step]. rewrite andThen_ret.
    apply IH; [| done]. apply Forall_app. split; [done |].
    by apply Forall_singleton.
  - rewrite scavenger_tick_eq by done.
    destruct (IH (tick_kept closed now l)) as (l' & Hl' & HP);
      [by apply tick_kept_sessions | done |].
    exists l'. split; [| done].
    by rewrite (andThen_ok _ _ (tick_kept closed now l)).
Qed.

(** C7: with auto-expiry on the scavenger loops over its inputs.  A
    received item is appended with its expiry moved [ScavengeTTL] seconds
    later.  A tick over entries that carry sessions removes the entries
    whose session reports closed (logging the normal close) and those
    whose adjusted expiry is strictly before the clock (closing the
    session, logging the ttl close), and keeps every other entry, in
    order. *)
Theorem scavenger_receive_and_tick :
  0 < AutoExpire config →
  (∀ ins, scavenger config ins
          = do l <- scavenger_loop config [] ins; ret (Looping l, [])) ∧
  (∀ l item,
     scavenger_step config l (Recv item)
     = ret (l ++ [mkTimed (session item)
                          (expiryDate item + seconds (ScavengeTTL config))])) ∧
  (-9223372036 ≤ ScavengeTTL config ≤ 9223372036 →
     seconds (ScavengeTTL config) = ScavengeTTL config * 1000000000) ∧
  (∀ l closed now,
     Forall (λ s, session s ≠ None) l →
     scavenger_step config l (Tick closed now)
     = mkRun (tick_events closed now l) (Ok (tick_kept closed now l)) ∧
     Forall (λ s, session s ≠ None) (tick_kept closed now l)).
Proof.
  intros HAE. repeat split.
  - unfold scavenger. destruct (Z.leb_spec (AutoExpire config) 0); [lia | done].
  - apply seconds_exact.
  - by apply scavenger_tick_eq.
  - by apply tick_kept_sessions.
Qed.

End Scavenger.

Lemma scavenger_receive_and_tick_witness :
  scavenger_step (mkConfig "k" "aes" 1 10 600 10 3 1 "" false)
    [mkTimed (Some 0%nat) 5; mkTimed (Some 1%nat) 9; mkTimed (Some 2%nat) 9]
    (Tick (λ k, Nat.eqb k 2) (λ _, 7))
  = mkRun [SessionClose 0%nat;
           Log "scavenger: session closed due to ttl:" [];
           Log "scavenger: session normally closed:" []]
          (Ok [mkTimed (Some 1%nat) 9]).
Proof.
  refine (proj1 (proj2 (proj2 (proj2 (scavenger_receive_and_tick
            (mkConfig "k" "aes" 1 10 600 10 3 1 "" false) eq_refl)))
          [mkTimed (Some 0%nat) 5; mkTimed (Some 1%nat) 9;
           mkTimed (Some 2%nat) 9]
          (λ k, Nat.eqb k 2) (λ _, 7) _)).
  repeat constructor; discriminate.
Defined.

(** * More on the listener goroutine *)

Section ListenerRuns.

Variable config : Config.
Implicit Types (st : Pool) (o : AcceptObs) (os : list AcceptObs).

Lemma sent_reconnecting n : sent (replicate n (Log "re-connecting:" [])) = [].
Proof. unfold sent. induction n; simpl; auto. Qed.

Lemma elem_of_reconnecting e n :
  e ∈ replicate n (Log "re-connecting:" []) → e = Log "re-connecting:" [].
Proof. by intros [-> _]%elem_of_replicate. Qed.

(** The handler of an iteration is given a session, never nil. *)
Lemma acceptor_step_handles_session st o i s :
  GoHandleClient i s ∈ trace (acceptor_step config st o) →
  i = Z.to_nat (rr st mod numconn st) ∧ ∃ p, s = Some p.
Proof.
  rewrite acceptor_step_eq. cbv zeta.
  destruct (accept_err o); [by intros ?%elem_of_nil |].
  destruct (numconn st =? 0); [by intros ?%elem_of_nil |].
  destruct (muxes st !! _) as [m |]; [| by intros ?%elem_of_nil].
  destruct (stale config m o) eqn:Hstale.
  - destruct (dial o); cbn [trace].
    + rewrite !elem_of_app. intros [Hin | [Hin | Hin]].
      * by apply elem_of_reconnecting in Hin.
      * destruct (0 <? AutoExpire config);
          [by apply list_elem_of_singleton in Hin
          | by apply elem_of_nil in Hin].
      * apply list_elem_of_singleton in Hin. injection Hin as -> ->. eauto.
    + by intros ?%elem_of_reconnecting.
  - intros Hin%list_elem_of_singleton. injection Hin as -> ->.
    split; [done |]. unfold stale in Hstale.
    destruct (session m); [eauto | done].
Qed.

Lemma acceptor_run_numconn_rr os : ∀ st i s,
  GoHandleClient i s ∈ trace (acceptor_run config st os) →
  0 ≤ numconn st → (i < Z.to_nat (numconn st))%nat ∧ ∃ p, s = Some p.
Proof.
  induction os as [| o os IH]; intros st i s; simpl.
  - by intros ?%elem_of_nil.
  - rewrite andThen_trace. intros [Hin | Hin]%elem_of_app Hn.
    + pose proof (acceptor_step_handled config st o) as Hstep.
      destruct (result (acceptor_step config st o)) eqn:Hres.
      * destruct Hstep as (_ & Hn0 & _).
        apply acceptor_step_handles_session in Hin as [-> Hs].
        split; [| done].
        pose proof (Z.mod_pos_bound (rr st) (numconn st)). lia.
      * exfalso. assert (Hh : (i, s) ∈ handled (trace (acceptor_step config st o))).
        { unfold handled. apply list_elem_of_omap. by eexists. }
        rewrite Hstep in Hh. by apply elem_of_nil in Hh.
      * exfalso. assert (Hh : (i, s) ∈ handled (trace (acceptor_step config st o))).
        { unfold handled. apply list_elem_of_omap. by eexists. }
        rewrite Hstep in Hh. by apply elem_of_nil in Hh.
    + pose proof (acceptor_step_handled config st o) as Hstep.
      destruct (result (acceptor_step config st o)) as [st1 | |];
        [| by apply elem_of_nil in Hin ..].
      destruct Hstep as (_ & _ & Hn1 & _). rewrite <- Hn1.
      apply IH; [done | by rewrite Hn1].
Qed.

(** X1: every [handleClient] the listener starts is given a session that
    is not nil, for a slot inside the pool. *)
Theorem handlers_get_sessions os i s :
  GoHandleClient i s ∈ trace (acceptor config os) →
  (i < Z.to_nat (uint16 (Conn config)))%nat ∧ ∃ p, s = Some p.
Proof.
  intros Hin. apply (acceptor_run_numconn_rr os (listener_start config) i s Hin).
  simpl. unfold uint16. pose proof (Z.mod_pos_bound (Conn config) (2 ^ 16)). lia.
Qed.

(** How a run of the loop can fail. *)
Lemma acceptor_run_failures os : ∀ st,
  pool_wf st →
  match result (acceptor_run config st os) with
  | Ok _ => True
  | Panic p => p = DivideByZero ∧ numconn st = 0
  | Fatal => Exists (λ o, obs_fine o = false) os
  end.
Proof.
  induction os as [| o os IH]; intros st Hwf; [done |].
  cbn [acceptor_run]. unfold andThen.
  pose proof (acceptor_step_wf config st o) as Hwf1.
  pose proof (acceptor_step_handled config st o) as Hh.
  destruct (result (acceptor_step config st o)) as [st1 | |] eqn:Hres;
    cbn [result].
  - specialize (IH st1 (Hwf1 st1 Hwf eq_refl)).
    destruct Hh as (_ & _ & Hn1 & _).
    destruct (result (acceptor_run config st1 os)); [done | |].
    + by apply Exists_cons_tl.
    + by rewrite <- Hn1.
  - apply Exists_cons_hd. revert Hres. rewrite acceptor_step_eq. cbv zeta.
    unfold obs_fine.
    destruct (accept_err o); [done |].
    destruct (numconn st =? 0); [done |].
    destruct (muxes st !! _) as [m |]; [| done].
    destruct (stale config m o); [| done].
    by destruct (dial o).
  - revert Hres. rewrite acceptor_step_eq. cbv zeta.
    destruct (accept_err o); [done |].
    destruct (Z.eqb_spec (numconn st) 0) as [| Hn]; [by intros [= <-] |].
    destruct (slot_in_range st Hwf Hn) as [m ->].
    destruct (stale config m o); [| done].
    by destruct (dial o).
Qed.

(** X2: the listener never indexes its arrays out of range.  Its only
    panic is the division by a zero slot count, and it ends the process
    only on an observation with a failed accept or a fatal dial. *)
Theorem listener_failure_modes os :
  match result (acceptor config os) with
  | Ok st => pool_wf st
  | Panic p => p = DivideByZero ∧ uint16 (Conn config) = 0
  | Fatal => Exists (λ o, obs_fine o = false) os
  end.
Proof.
  pose proof (acceptor_run_failures os (listener_start config)
                (listener_start_wf config)) as H.
  pose proof (acceptor_wf config os) as Hwf. unfold acceptor in *.
  destruct (result (acceptor_run config (listener_start config) os));
    [by apply Hwf | done | done].
Qed.

End ListenerRuns.

Section PoolContents.

Variable config : Config.
Implicit Types (st : Pool) (o : AcceptObs) (os : list AcceptObs).

Lemma omap_id_fmap {A B} (f : A → option B) (l : list A) :
  omap id (f <$> l) = omap f l.
Proof.
  induction l as [| x l IH]; [done |]. csimpl.
  destruct (f x); simpl; by rewrite IH.
Qed.

Lemma omap_of_somes {A B} (f : A → option B) (l : list A) (k : list B) :
  f <$> l = Some <$> k → omap f l = k.
Proof.
  revert k. induction l as [| x l IH]; intros [| y k]; csimpl; try done.
  intros [= -> Hl]. simpl. by rewrite (IH k Hl).
Qed.

(** The transport of a slot is the one dialed with the slot's session. *)
Lemma acceptor_step_mirror st o st1 :
  connes st = session <$> muxes st →
  result (acceptor_step config st o) = Ok st1 →
  connes st1 = session <$> muxes st1.
Proof.
  intros Hmirror. rewrite acceptor_step_eq. cbv zeta.
  destruct (accept_err o); [done |].
  destruct (numconn st =? 0); [done |].
  destruct (muxes st !! _) as [m |]; [| done].
  destruct (stale config m o).
  - destruct (dial o); [| done]. intros [= <-]. cbn [connes muxes].
    by rewrite list_fmap_insert, Hmirror.
  - by intros [= <-].
Qed.

Lemma acceptor_run_mirror os : ∀ st st1,
  connes st = session <$> muxes st →
  result (acceptor_run config st os) = Ok st1 →
  connes st1 = session <$> muxes st1.
Proof.
  induction os as [| o os IH]; intros st st1 Hm; simpl.
  - by intros [= <-].
  - intros (st' & H1 & H2)%andThen_result_ok.
    eauto using acceptor_step_mirror.
Qed.

(** X3: in every pool the listener reaches, [connes] mirrors [muxes]:
    slot [i] holds the transport dialed together with the session of slot
    [i], or nil when the slot was never filled.  So a change of shard
    counts from the FIFO calls [SetFEC] once for each filled slot, on the
    transport under the session now in that slot, and on no transport of a
    session that was replaced. *)
Theorem connes_mirror_muxes os st ds ps :
  result (acceptor config os) = Ok st →
  connes st = session <$> muxes st ∧
  set_fec_all (connes st) ds ps
  = mkRun ((λ u, SetFEC u ds ps) <$> omap session (muxes st)) (Ok tt).
Proof.
  intros Hreach.
  assert (Hm : connes st = session <$> muxes st).
  { apply (acceptor_run_mirror os (listener_start config)); [| done].
    simpl. by rewrite fmap_replicate. }
  split; [done |].
  rewrite set_fec_all_calls. unfold fec_calls. by rewrite Hm, omap_id_fmap.
Qed.

(** What an iteration sends, and what it allocates. *)
Lemma acceptor_step_sent st o :
  0 < AutoExpire config →
  ∃ k, length (sent (trace (acceptor_step config st o))) = k ∧
       session <$> sent (trace (acceptor_step config st o))
       = Some <$> seq (allocated st) k ∧
       ∀ st1, result (acceptor_step config st o) = Ok st1 →
              allocated st1 = (allocated st + k)%nat.
Proof.
  intros HAE. rewrite acceptor_step_eq. cbv zeta.
  destruct (accept_err o); [by exists 0%nat |].
  destruct (numconn st =? 0); [by exists 0%nat |].
  destruct (muxes st !! _) as [m |]; [| by exists 0%nat].
  destruct (stale config m o).
  - destruct (dial o); cbn [trace result].
    + exists 1%nat. destruct (Z.ltb_spec 0 (AutoExpire config)); [| lia].
      unfold sent. rewrite !omap_app. fold (sent (replicate retries (Log "re-connecting:" []))).
      rewrite sent_reconnecting. simpl.
      repeat split. intros st1 [= <-]. simpl. lia.
    + exists 0%nat. by rewrite sent_reconnecting.
  - exists 0%nat. repeat split. intros st1 [= <-]. simpl. lia.
Qed.

Lemma acceptor_run_sent os : ∀ st,
  0 < AutoExpire config →
  session <$> sent (trace (acceptor_run config st os))
  = Some <$> seq (allocated st)
                 (length (sent (trace (acceptor_run config st os)))) ∧
  ∀ st', result (acceptor_run config st os) = Ok st' →
         allocated st'
         = (allocated st
            + length (sent (trace (acceptor_run config st os))))%nat.
Proof.
  induction os as [| o os IH]; intros st HAE.
  - simpl. split; [done |]. intros st' [= <-]. lia.
  - cbn [acceptor_run]. rewrite andThen_trace.
    destruct (acceptor_step_sent st o HAE) as (k & Hk & Hs & Ha).
    unfold sent in *. rewrite omap_app, fmap_app, length_app, Hs, Hk.
    unfold andThen.
    destruct (result (acceptor_step config st o)) as [st1 | |] eqn:Hres;
      cbn [result].
    + destruct (IH st1 HAE) as [IH1 IH2]. rewrite (Ha st1 eq_refl) in *.
      rewrite IH1, seq_app, fmap_app. split; [done |].
      intros st' Hst'. rewrite (IH2 st' Hst'). lia.
    + simpl. rewrite !app_nil_r, Nat.add_0_r. done.
    + simpl. rewrite !app_nil_r, Nat.add_0_r. done.
Qed.

(** X4: with auto-expiry on, the scavenger channel is sent every session
    the pool dials, once each and in the order of the dials: the sessions
    of the items sent are sessions 0, 1, 2, ... with no repeat, and their
    number is the number of sessions dialed. *)
Theorem channel_gets_every_dial os :
  0 < AutoExpire config →
  let items := sent (trace (acceptor config os)) in
  omap session items = seq 0 (length items) ∧
  NoDup (omap session items) ∧
  Forall (λ item, session item ≠ None) items ∧
  (∀ st, result (acceptor config os) = Ok st → allocated st = length items).
Proof.
  intros HAE items.
  destruct (acceptor_run_sent os (listener_start config) HAE) as [H1 H2].
  fold (acceptor config os) in H1, H2. fold items in H1, H2.
  assert (Hs : omap session items = seq 0 (length items))
    by by apply omap_of_somes.
  split; [done |]. split; [rewrite Hs; apply NoDup_seq |].
  split; [| intros st Hst; by rewrite (H2 st Hst)].
  apply Forall_forall. intros item Hin.
  apply (acceptor_run_sends_sessions config os (listener_start config)).
  unfold items, sent in Hin. apply list_elem_of_omap in Hin as (e & He & Hx).
  destruct e; try done. by injection Hx as ->.
Qed.

End PoolContents.

Lemma connes_mirror_muxes_witness :
  set_fec_all [Some 0%nat; Some 1%nat; None] 20 5
  = mkRun [SetFEC 0%nat 20 5; SetFEC 1%nat 20 5] (Ok tt).
Proof.
  exact (proj2 (connes_mirror_muxes
                  (mkConfig "k" "aes" 3 0 600 10 3 1 "" false)
                  (replicate 2 (mkObs false false 0 (DialReturns 0) 0))
                  (mkPool 3 [mkTimed (Some 0%nat) 0; mkTimed (Some 1%nat) 0;
                             zero_timedSession]
                          [Some 0%nat; Some 1%nat; None] 2 2)
                  20 5 eq_refl)).
Defined.

Lemma channel_gets_every_dial_witness :
  NoDup (omap session
           (sent (trace (acceptor (mkConfig "k" "aes" 1 1 600 10 3 1 "" false)
                           [mkObs false false 0 (DialReturns 0) 0;
                            mkObs false true 0 (DialReturns 0) 0])))).
Proof.
  exact (proj1 (proj2 (channel_gets_every_dial
                         (mkConfig "k" "aes" 1 1 600 10 3 1 "" false)
                         [mkObs false false 0 (DialReturns 0) 0;
                          mkObs false true 0 (DialReturns 0) 0] eq_refl))).
Defined.

Section RoundRobin.

Variable config : Config.
Implicit Types (st : Pool) (o : AcceptObs) (os : list AcceptObs).

Lemma handled_lookup_elem tr k i s :
  handled tr !! k = Some (i, s) → GoHandleClient i s ∈ tr.
Proof.
  intros Hk%list_elem_of_lookup_2. unfold handled in Hk.
  apply list_elem_of_omap in Hk as (e & He & Hx).
  destruct e; try done. by injection Hx as -> ->.
Qed.

Lemma succ_mod_wrap k W :
  0 ≤ k → 0 < W → (k + 1) mod W ≠ 0 → (k + 1) mod W = k mod W + 1.
Proof.
  intros Hk HW Hne.
  pose proof (Z.mod_pos_bound k W HW) as Hr.
  pose proof (Z.div_mod k W ltac:(lia)) as Hdiv.
  destruct (decide (k mod W + 1 = W)) as [Heq | Hlt].
  - exfalso. apply Hne.
    replace (k + 1) with (0 + (k / W + 1) * W) by lia.
    by rewrite Z.mod_add by lia.
  - replace (k + 1) with (k mod W + 1 + k / W * W) by lia.
    rewrite Z.mod_add by lia. apply Z.mod_small. lia.
Qed.

(** X5: consecutive connections go to consecutive slots, cyclically,
    until the 16-bit counter wraps; the connection accepted right after
    the wrap starts again at slot 0, whatever slot came before. *)
Theorem round_robin_rotation os k i j s s' :
  handled (trace (acceptor config os)) !! k = Some (i, s) →
  handled (trace (acceptor config os)) !! S k = Some (j, s') →
  (Z.of_nat (S k) mod 2 ^ 16 ≠ 0 →
     Z.of_nat j = (Z.of_nat i + 1) mod uint16 (Conn config)) ∧
  (Z.of_nat (S k) mod 2 ^ 16 = 0 → j = 0%nat).
Proof.
  intros Hi Hj.
  assert (Hn0 : 0 ≤ uint16 (Conn config)).
  { unfold uint16. pose proof (Z.mod_pos_bound (Conn config) (2 ^ 16)). lia. }
  pose proof (acceptor_run_numconn_rr config os (listener_start config) i s
                (handled_lookup_elem _ _ _ _ Hi) Hn0) as [Hlt _].
  apply (acceptor_run_handled config os (listener_start config) 0 k i s)
    in Hi; [| done ..].
  apply (acceptor_run_handled config os (listener_start config) 0 (S k) j s')
    in Hj; [| done ..].
  cbn [numconn listener_start] in *. rewrite Nat.add_0_l in *.
  replace (Z.of_nat (S k)) with (Z.of_nat k + 1) in * by lia.
  split.
  - intros Hne. rewrite Hj, Hi,
      (succ_mod_wrap (Z.of_nat k) (2 ^ 16) ltac:(lia) ltac:(lia) Hne).
    by rewrite Zplus_mod_idemp_l.
  - intros Heq. rewrite Heq, Z.mod_0_l in Hj by lia. lia.
Qed.

Lemma acceptor_step_fills N k st o :
  AutoExpire config ≤ 0 →
  N ≠ 0%nat →
  filled_in_order N k st →
  obs_fine o = true → is_closed o = false →
  ∃ st1 tr i,
    acceptor_step config st o
    = mkRun (tr ++ [GoHandleClient i (Some i)]) (Ok st1) ∧
    handled tr = [] ∧
    filled_in_order N (S k) st1.
Proof.
  intros HAE HN (Hwf & Hnum & Halloc & Hrr & Hslots) [Hacc Hdial]%andb_prop Hcl.
  assert (Hn : numconn st ≠ 0) by lia.
  pose proof (wf_numconn st Hwf) as Hnb.
  pose proof (wf_rr st Hwf) as Hrb.
  destruct (slot_in_range st Hwf Hn) as [m Hm].
  pose proof (Z.mod_pos_bound (rr st) (numconn st) ltac:(lia)) as Hidx.
  pose proof (Hslots _ _ Hm) as Hsm.
  apply lookup_lt_Some in Hm as Hlen.
  pose proof (acceptor_step_wf config st o) as Hwf1.
  pose proof (acceptor_step_eq config st o) as Heq. cbv zeta in Heq.
  destruct (accept_err o); [done |].
  destruct (Z.eqb_spec (numconn st) 0); [done |].
  rewrite Hm in Heq. unfold stale in Heq. rewrite Hsm, Hcl in Heq.
  destruct (Z.ltb_spec 0 (AutoExpire config)); [lia |].
  cbn [orb andb app] in Heq.
  destruct (decide (k < N)%nat) as [Hk | Hk].
  - (* the next slot is the first empty one *)
    assert (Hidxk : Z.to_nat (rr st `mod` numconn st) = k).
    { rewrite (Hrr Hk), Z.mod_small by lia. lia. }
    assert (Hak : allocated st = k) by lia.
    rewrite Hidxk, Hak in *.
    destruct (Nat.ltb_spec k (k `min` N)); [lia |].
    destruct (dial o) as [r | r]; [| done].
    eexists _, (replicate r (Log "re-connecting:" [])), k.
    split; [exact Heq |]. split.
    { unfold handled. clear. induction r; simpl; auto. }
    split; [apply Hwf1; [done | by rewrite Heq] |].
    cbn [numconn allocated rr muxes].
    split; [done |]. split; [lia |]. split.
    + intros HSk. unfold uint16. rewrite (Hrr Hk), Z.mod_small; lia.
    + intros i m0 Hi0. destruct (decide (i = k)) as [-> |].
      * rewrite list_lookup_insert_eq in Hi0 by done. injection Hi0 as <-.
        cbn [session]. destruct (Nat.ltb_spec k (S k `min` N)); [done | lia].
      * rewrite list_lookup_insert_ne in Hi0 by done.
        rewrite (Hslots _ _ Hi0).
        destruct (Nat.ltb_spec i (k `min` N));
          destruct (Nat.ltb_spec i (S k `min` N)); try done; lia.
  - (* every slot is filled *)
    destruct (Nat.ltb_spec (Z.to_nat (rr st `mod` numconn st)) (k `min` N));
      [| lia].
    eexists _, [], _. split; [exact Heq |].
    split; [done |].
    split; [apply Hwf1; [done | by rewrite Heq] |].
    cbn [numconn allocated rr muxes].
    split; [done |]. split; [lia |]. split; [lia |].
    intros i m0 Hi0. rewrite (Hslots _ _ Hi0).
    by replace (S k `min` N)%nat with (k `min` N)%nat by lia.
Qed.

Lemma acceptor_run_fills N os : ∀ k st,
  AutoExpire config ≤ 0 →
  N ≠ 0%nat →
  filled_in_order N k st →
  Forall (λ o, obs_fine o = true ∧ is_closed o = false) os →
  ∃ st',
    result (acceptor_run config st os) = Ok st' ∧
    filled_in_order N (k + length os) st' ∧
    Forall (λ '(i, s), s = Some i) (handled (trace (acceptor_run config st os))).
Proof.
  induction os as [| o os IH]; intros k st HAE HN Hinv Hos.
  - exists st. rewrite Nat.add_0_r. split; [done |]. split; [done |].
    apply Forall_nil_2.
  - apply Forall_cons in Hos as [[Hfine Hcl] Hos].
    destruct (acceptor_step_fills N k st o HAE HN Hinv Hfine Hcl)
      as (st1 & tr & i & Heq & Htr & Hinv1).
    destruct (IH (S k) st1 HAE HN Hinv1 Hos) as (st' & Hres & Hinv' & Hh).
    exists st'. cbn [acceptor_run length]. rewrite Heq.
    unfold andThen. cbn [result trace]. rewrite Hres.
    split; [done |]. split; [by rewrite Nat.add_succ_r |].
    unfold handled in *. rewrite !omap_app, Htr. simpl.
    by apply Forall_cons.
Qed.

(** X6: with auto-expiry off and no session ever reported closed, the
    pool dials exactly once per slot: after [k] accepted connections
    [min k numconn] sessions have been dialed, slot [i] holds the [i]-th of
    them, and every connection is given the session of its slot without a
    new dial once all slots are filled. *)
Theorem pool_fills_once os :
  AutoExpire config ≤ 0 →
  uint16 (Conn config) ≠ 0 →
  Forall (λ o, obs_fine o = true ∧ is_closed o = false) os →
  ∃ st,
    result (acceptor config os) = Ok st ∧
    allocated st = (length os `min` Z.to_nat (uint16 (Conn config)))%nat ∧
    Forall (λ '(i, s), s = Some i) (handled (trace (acceptor config os))).
Proof.
  intros HAE Hn Hos.
  assert (Hn0 : 0 ≤ uint16 (Conn config) < 2 ^ 16)
    by (apply Z.mod_pos_bound; lia).
  destruct (acceptor_run_fills (Z.to_nat (uint16 (Conn config))) os 0
              (listener_start config) HAE ltac:(lia)) as (st & Hres & Hinv & Hh);
    [| done |].
  - split; [apply listener_start_wf |]. cbn [numconn allocated rr muxes listener_start].
    split; [done |]. split; [lia |]. split; [done |].
    intros i m [-> _]%lookup_replicate. simpl.
    destruct (Nat.ltb_spec i (0 `min` Z.to_nat (uint16 (Conn config)))); [lia | done].
  - exists st. split; [done |]. split; [| done].
    destruct Hinv as (_ & _ & Ha & _). by rewrite Ha.
Qed.

End RoundRobin.

(** * More on the scavenger goroutine *)

Section ScavengerRuns.

Variable config : Config.
Implicit Types (l : list timedSession) (closed : nat → bool) (now : nat → Time).

(** What [Recv] stores for an item. *)
Lemma scavenger_step_recv l item :
  scavenger_step config l (Recv item)
  = ret (l ++ [mkTimed (session item)
                 (expiryDate item + seconds (ScavengeTTL config))]).
Proof. reflexivity. Qed.

(** An entry that a tick closes for ttl, in terms of the loop itself. *)
Lemma sweep_close_entry closed now l : ∀ k newList p,
  SessionClose p ∈ trace (sweep closed now k l newList) →
  ∃ j e, l !! j = Some e ∧ session e = Some p ∧
         closed (k + j)%nat = false ∧ expiryDate e < now (k + j)%nat.
Proof.
  induction l as [| s l IH]; intros k newList p; cbn [sweep].
  - by intros ?%elem_of_nil.
  - destruct (session s) as [q |] eqn:Hq; [| by intros ?%elem_of_nil].
    assert (Hshift : ∀ newList',
      SessionClose p ∈ trace (sweep closed now (S k) l newList') →
      ∃ j e, (s :: l) !! j = Some e ∧ session e = Some p ∧
             closed (k + j)%nat = false ∧ expiryDate e < now (k + j)%nat).
    { intros newList' (j & e & Hj & He & Hc & Ht)%IH. exists (S j), e.
      rewrite Nat.add_succ_r. by repeat split. }
    destruct (closed k) eqn:Hck.
    + rewrite andThen_emit. cbn [trace].
      intros [[=] | Hin]%elem_of_cons. by eapply Hshift.
    + unfold After. destruct (Z.ltb_spec (expiryDate s) (now k)).
      * rewrite !andThen_emit. cbn [trace].
        intros [[= ->] | [[=] | Hin]%elem_of_cons]%elem_of_cons.
        -- exists 0%nat, s. rewrite Nat.add_0_r. by repeat split.
        -- by eapply Hshift.
      * apply Hshift.
Qed.

(** The entries a tick keeps are entries it was given. *)
Lemma sweep_kept_entries closed now l : ∀ k newList l1,
  result (sweep closed now k l newList) = Ok l1 →
  ∀ e, e ∈ l1 → e ∈ newList ∨ e ∈ l.
Proof.
  induction l as [| s l IH]; intros k newList l1; cbn [sweep].
  - intros [= <-]. auto.
  - destruct (session s) as [q |]; [| done].
    assert (Hshift : ∀ newList',
      result (sweep closed now (S k) l newList') = Ok l1 →
      ∀ e, e ∈ l1 → e ∈ newList' ∨ e ∈ s :: l).
    { intros newList' Hres e He.
      destruct (IH _ _ _ Hres e He); [auto | right; by apply elem_of_cons; right]. }
    destruct (closed k).
    + intros (? & _ & H)%andThen_result_ok. by apply Hshift.
    + destruct (After (now k) (expiryDate s)).
      * intros (? & _ & (? & _ & H)%andThen_result_ok)%andThen_result_ok.
        by apply Hshift.
      * intros Hres e He.
        destruct (Hshift _ Hres e He) as [[| ->%list_elem_of_singleton]%elem_of_app |];
          [auto | right; apply elem_of_cons; by left | auto].
Qed.

(** Every entry of the list stands for an item received before. *)
Lemma scavenger_loop_entries ins : ∀ l l',
  result (scavenger_loop config l ins) = Ok l' →
  ∀ e, e ∈ l' →
    e ∈ l ∨
    ∃ item, item ∈ recvs ins ∧ session e = session item ∧
            expiryDate e = expiryDate item + seconds (ScavengeTTL config).
Proof.
  induction ins as [| i ins IH]; intros l l'; cbn [scavenger_loop].
  - intros [= <-]. auto.
  - intros (l1 & Hstep & Hloop)%andThen_result_ok e He.
    destruct (IH _ _ Hloop e He) as [Hin | (item & Hin & Hs & Ht)].
    + destruct i as [item | closed now].
      * injection Hstep as <-.
        apply elem_of_app in Hin as [| ->%list_elem_of_singleton]; [auto |].
        right. exists item. split; [| done]. unfold recvs. simpl.
        by apply elem_of_cons; left.
      * left. cbn [scavenger_step] in Hstep.
        destruct (length l =? 0)%nat; [by injection Hstep as <- |].
        destruct (sweep_kept_entries _ _ _ _ _ _ Hstep e Hin) as [?%elem_of_nil |];
          done.
    + right. exists item. split; [| done]. unfold recvs in *.
      destruct i; simpl; [by apply elem_of_cons; right | done].
Qed.

(** X7: a session is closed for ttl only when its grace window has
    run out: the item it was received with had an expiry more than
    [ScavengeTTL] seconds before the clock reading of the tick, so the pool
    finds that session stale at every accept whose clock reading is not
    before the tick's. *)
Theorem ttl_close_after_grace ins l closed now p :
  0 < AutoExpire config →
  0 ≤ ScavengeTTL config ≤ 9223372036 →
  result (scavenger_loop config [] ins) = Ok l →
  SessionClose p ∈ trace (scavenger_step config l (Tick closed now)) →
  ∃ item j,
    item ∈ recvs ins ∧ session item = Some p ∧
    expiryDate item + ScavengeTTL config * 1000000000 < now j ∧
    ∀ o, now j ≤ now_check o → stale config item o = true.
Proof.
  intros HAE HTTL Hl Hin. cbn [scavenger_step] in Hin.
  destruct (length l =? 0)%nat; [by apply elem_of_nil in Hin |].
  apply sweep_close_entry in Hin as (j & e & Hj & He & _ & Ht).
  apply list_elem_of_lookup_2 in Hj.
  destruct (scavenger_loop_entries ins [] l Hl e Hj)
    as [?%elem_of_nil | (item & Hitem & Hs & Hexp)]; [done |].
  rewrite seconds_exact in Hexp by lia.
  exists item, (0 + j)%nat. split; [done |]. split; [congruence |].
  split; [lia |]. intros o Ho. unfold stale, After.
  rewrite <- Hs, He.
  destruct (Z.ltb_spec 0 (AutoExpire config)); [| lia].
  destruct (Z.ltb_spec (expiryDate item) (now_check o)); [| lia].
  by rewrite orb_true_r.
Qed.

End ScavengerRuns.

Section ScavengerCloses.

Variable config : Config.
Implicit Types (l : list timedSession) (closed : nat → bool) (now : nat → Time).

Lemma NoDup_submseteq_inv {A} (l k : list A) : l ⊆+ k → NoDup k → NoDup l.
Proof.
  intros [k' Hk]%submseteq_Permutation. rewrite Hk.
  by intros [? _]%NoDup_app.
Qed.

(** The sessions a tick closes and the sessions it keeps are, together,
    among the sessions it was given, each as often as given. *)
Lemma sweep_closes closed now l : ∀ k newList,
  ∃ kept,
    closes (trace (sweep closed now k l newList)) ++ omap session kept
      ⊆+ omap session l ∧
    ∀ l1, result (sweep closed now k l newList) = Ok l1 →
          l1 = newList ++ kept.
Proof.
  induction l as [| s l IH]; intros k newList; cbn [sweep].
  - exists []. split; [done |]. intros l1 [= <-]. by rewrite app_nil_r.
  - destruct (session s) as [q |] eqn:Hq.
    2: { exists []. split; [apply submseteq_nil_l | done]. }
    cbn [omap list_omap]. rewrite Hq.
    destruct (closed k).
    + destruct (IH (S k) newList) as (kept & Hsub & Hres).
      exists kept. rewrite andThen_emit. cbn [trace result closes omap list_omap].
      split; [by apply submseteq_cons | done].
    + destruct (After (now k) (expiryDate s)).
      * destruct (IH (S k) newList) as (kept & Hsub & Hres).
        exists kept. rewrite !andThen_emit.
        cbn [trace result closes omap list_omap app].
        split; [by apply submseteq_skip | done].
      * destruct (IH (S k) (newList ++ [s])) as (kept & Hsub & Hres).
        exists (s :: kept). cbn [omap list_omap]. rewrite Hq. split.
        -- rewrite <- Permutation_middle. by apply submseteq_skip.
        -- intros l1 Hl1. rewrite (Hres l1 Hl1), <- app_assoc. done.
Qed.

Lemma closes_app tr1 tr2 : closes (tr1 ++ tr2) = closes tr1 ++ closes tr2.
Proof. apply omap_app. Qed.

(** Over a run of the loop no session is closed twice, as long as no
    session is received twice. *)
Lemma scavenger_loop_closes ins : ∀ l,
  NoDup (omap session l ++ omap session (recvs ins)) →
  NoDup (closes (trace (scavenger_loop config l ins))) ∧
  ∀ p, p ∈ closes (trace (scavenger_loop config l ins)) →
       p ∈ omap session l ++ omap session (recvs ins).
Proof.
  induction ins as [| i ins IH]; intros l Hnd; cbn [scavenger_loop].
  - split; [apply NoDup_nil_2 | by intros p ?%elem_of_nil].
  - destruct i as [item | closed now].
    + cbn [scavenger_step]. rewrite andThen_ret.
      assert (Heq : omap session
                (l ++ [mkTimed (session item)
                         (Add (expiryDate item) (seconds (ScavengeTTL config)))])
                ++ omap session (recvs ins)
              = omap session l ++ omap session (recvs (Recv item :: ins))).
      { rewrite omap_app, <- app_assoc. f_equal. unfold recvs. simpl.
        by destruct (session item). }
      rewrite <- Heq in *. by apply IH.
    + assert (Hr : recvs (Tick closed now :: ins) = recvs ins) by done.
      rewrite Hr in *. cbn [scavenger_step].
      destruct (length l =? 0)%nat; [rewrite andThen_ret; by apply IH |].
      destruct (sweep_closes closed now l 0 []) as (kept & Hsub & Hres).
      rewrite andThen_trace, closes_app.
      assert (Hnd1 : NoDup ((closes (trace (sweep closed now 0 l []))
                             ++ omap session kept) ++ omap session (recvs ins))).
      { eapply NoDup_submseteq_inv; [| exact Hnd]. by apply submseteq_skips_r. }
      rewrite <- app_assoc in Hnd1.
      apply NoDup_app in Hnd1 as (Hc1 & Hdisj & Hrest).
      assert (Hin1 : ∀ p, p ∈ closes (trace (sweep closed now 0 l [])) →
                          p ∈ omap session l ++ omap session (recvs ins)).
      { intros p Hp. apply elem_of_app. left.
        eapply elem_of_submseteq; [| exact Hsub]. apply elem_of_app. by left. }
      destruct (result (sweep closed now 0 l [])) as [l1 | |] eqn:Hl1.
      * rewrite (Hres l1 eq_refl). simpl.
        destruct (IH kept Hrest) as [IH1 IH2]. split.
        -- apply NoDup_app. split; [done |]. split; [| done].
           intros p Hp Hp2. by apply (Hdisj p Hp), IH2.
        -- intros p [Hp | Hp]%elem_of_app; [by apply Hin1 |].
           apply IH2 in Hp. apply elem_of_app in Hp as [Hp | Hp];
             apply elem_of_app; [left | by right].
           eapply elem_of_submseteq; [| exact Hsub]. apply elem_of_app. by right.
      * rewrite app_nil_r. by split.
      * rewrite app_nil_r. by split.
Qed.

(** X8: fed with the items the pool sends, in any interleaving with
    ticks and whatever the clock and [IsClosed] report, the scavenger
    never panics, calls [Close] at most once on any session, and only on
    sessions the pool has sent. *)
Theorem scavenger_closes_once os ins :
  recvs ins `sublist_of` sent (trace (acceptor config os)) →
  is_ok (result (scavenger config ins)) = true ∧
  NoDup (closes (trace (scavenger config ins))) ∧
  ∀ p, p ∈ closes (trace (scavenger config ins)) →
       p ∈ omap session (sent (trace (acceptor config os))).
Proof.
  intros Hsub. unfold scavenger.
  destruct (Z.leb_spec (AutoExpire config) 0) as [| HAE].
  { cbn. split; [done |]. split; [apply NoDup_nil_2 | by intros p ?%elem_of_nil]. }
  assert (Hsess : Forall (λ item, session item ≠ None) (recvs ins)).
  { apply Forall_forall. intros item Hin.
    apply (acceptor_run_sends_sessions config os (listener_start config)).
    eapply elem_of_sublist in Hin; [| exact Hsub].
    unfold sent in Hin. apply list_elem_of_omap in Hin as (e & He & Hx).
    destruct e; try done. by injection Hx as ->. }
  assert (Hins : Forall (λ i, match i with
                              | Recv item => session item ≠ None
                              | Tick _ _ => True
                              end) ins).
  { apply Forall_forall. intros [item |] Hin; [| done].
    rewrite Forall_forall in Hsess. apply Hsess. unfold recvs.
    apply list_elem_of_omap. by exists (Recv item). }
  destruct (scavenger_loop_runs config ins [] (Forall_nil_2 _) Hins)
    as (l' & Hl' & _).
  assert (Hnd : NoDup (omap session (sent (trace (acceptor config os))))).
  { destruct (acceptor_run_sent config os (listener_start config) HAE) as [H1 _].
    unfold acceptor. rewrite (omap_of_somes _ _ _ H1). apply NoDup_seq. }
  assert (Hsub' : omap session (recvs ins)
                  `sublist_of` omap session (sent (trace (acceptor config os)))).
  { clear -Hsub. induction Hsub as [| x l1 l2 _ IH | x l1 l2 _ IH]; simpl.
    - constructor.
    - destruct (session x); [by constructor | done].
    - destruct (session x); [by constructor | done]. }
  destruct (scavenger_loop_closes ins []) as [H1 H2].
  { simpl. eapply NoDup_submseteq_inv; [| exact Hnd]. by apply sublist_submseteq. }
  rewrite andThen_trace, Hl'. cbn [trace ret]. rewrite app_nil_r.
  unfold andThen. rewrite Hl'. cbn [result].
  split; [done |]. split; [done |].
  intros p Hp%H2. simpl in Hp. by eapply elem_of_sublist.
Qed.

End ScavengerCloses.

(** * More on the control FIFO reader *)

Section FifoRuns.

Implicit Types (config : Config) (connes : list (option UDPSession)).

Lemma andThen_assoc {A B C} (m : run A) (k : A → run B) (k' : B → run C) :
  andThen (andThen m k) k' = andThen m (λ a, andThen (k a) k').
Proof.
  unfold andThen. destruct (result m) as [a | |]; cbn [result trace]; [| done ..].
  destruct (result (k a)); cbn [result trace]; by rewrite ?app_assoc.
Qed.

Lemma andThen_ext {A B} (m : run A) (k k' : A → run B) :
  (∀ a, k a = k' a) → andThen m k = andThen m k'.
Proof. intros H. unfold andThen. destruct (result m); by rewrite ?H. Qed.

Lemma fifo_reader_app config connes reads1 reads2 :
  fifo_reader config connes (reads1 ++ reads2)
  = andThen (fifo_reader config connes reads1)
            (λ c, fifo_reader c connes reads2).
Proof.
  revert config. induction reads1 as [| r reads1 IH]; intros config.
  - simpl. by rewrite andThen_ret.
  - cbn [fifo_reader app]. rewrite andThen_assoc.
    apply andThen_ext. intros c. apply IH.
Qed.

Lemma set_shards_twice config a b x y :
  set_shards (set_shards config a b) x y = set_shards config x y.
Proof. reflexivity. Qed.

Lemma set_shards_same config :
  set_shards config (DataShard config) (ParityShard config) = config.
Proof. by destruct config. Qed.

Lemma fec_calls_events connes ds ps : Forall fifo_event (fec_calls connes ds ps).
Proof.
  unfold fec_calls. apply Forall_fmap, Forall_forall. by intros u _.
Qed.

(** One line changes the two shard counts at most, and only logs or
    calls [SetFEC]. *)
Lemma fifo_line_frame config connes line :
  (∀ c', result (fifo_line config connes line) = Ok c' →
         c' = set_shards config (DataShard c') (ParityShard c')) ∧
  Forall fifo_event (trace (fifo_line config connes line)) ∧
  result (fifo_line config connes line) ≠ Fatal.
Proof.
  destruct (Split_space_fields line) as (t0 & rest & Hsplit).
  rewrite (fifo_line_fields config connes line t0 rest Hsplit).
  destruct (Contains t0 "fec").
  - destruct rest as [| t1 [| t2 rest]]; [by repeat split .. |].
    destruct (negb _ || negb _); cbn [trace result ret].
    + split; [by intros c' [= <-] |]. split; [| done].
      apply Forall_cons. split; [done | apply fec_calls_events].
    + split; [| by split]. intros c' [= <-]. by rewrite set_shards_same.
  - cbn [trace result]. split; [| split; [by repeat constructor | done]].
    intros c' [= <-]. by rewrite set_shards_same.
Qed.

Lemma fifo_reader_shards reads : ∀ config connes c',
  result (fifo_reader config connes reads) = Ok c' →
  c' = set_shards config (DataShard c') (ParityShard c').
Proof.
  induction reads as [| r reads IH]; intros config connes c'.
  - intros [= <-]. by rewrite set_shards_same.
  - cbn [fifo_reader]. intros (c1 & H1 & H2)%andThen_result_ok.
    rewrite (IH c1 connes c' H2).
    assert (Hc1 : c1 = set_shards config (DataShard c1) (ParityShard c1)).
    { destruct r as [line |].
      - by apply (fifo_line_frame config connes line).
      - injection H1 as <-. by rewrite set_shards_same. }
    rewrite Hc1. by rewrite !set_shards_twice.
Qed.

(** X9: whatever is written to the FIFO, the reader changes no field
    of the configuration but [DataShard] and [ParityShard]; it only logs
    and calls [SetFEC], it never sends on the scavenger channel, closes a
    session or starts a handler; and it never ends in [log.Fatal]. *)
Theorem fifo_reader_frame config connes reads :
  (∀ c', result (fifo_reader config connes reads) = Ok c' →
         c' = set_shards config (DataShard c') (ParityShard c')) ∧
  Forall fifo_event (trace (fifo_reader config connes reads)) ∧
  result (fifo_reader config connes reads) ≠ Fatal.
Proof.
  split; [apply fifo_reader_shards |].
  revert config. induction reads as [| r reads IH]; intros config.
  - by split.
  - cbn [fifo_reader].
    set (m := match r with
              | ReadLine line => fifo_line config connes line
              | ReadError => ret config
              end).
    assert (Hm : Forall fifo_event (trace m) ∧ result m ≠ Fatal).
    { destruct r as [line |]; [apply fifo_line_frame | by split]. }
    destruct Hm as [Hm2 Hm3].
    rewrite andThen_trace. unfold andThen.
    destruct (result m) as [c1 | |] eqn:Hres; cbn [result]; [| done |].
    + destruct (IH c1) as [IH2 IH3]. split; [by apply Forall_app | done].
    + split; [by rewrite app_nil_r | done].
Qed.




(** X11: a recognized command is idempotent.  After a recognized line
    with at least three fields has been handled the configured shard
    counts are the two numbers of the line, and handling the same line
    again, against any pool, changes nothing, logs nothing and calls
    nothing. *)
Theorem fifo_command_idempotent config connes connes' line t0 rest c1 :
  Split_space line = t0 :: rest →
  Contains t0 "fec" = true →
  result (fifo_line config connes line) = Ok c1 →
  (∃ t1 t2 rest', rest = t1 :: t2 :: rest' ∧
     DataShard c1 = (Atoi t1).1 ∧ ParityShard c1 = (Atoi t2).1) ∧
  fifo_line c1 connes' line = ret c1.
Proof.
  intros Hsplit Hc.
  rewrite (fifo_line_fields config connes line t0 rest Hsplit),
          (fifo_line_fields c1 connes' line t0 rest Hsplit), Hc.
  destruct rest as [| t1 [| t2 rest']]; [done .. |].
  intros Hres.
  assert (Hsh : DataShard c1 = (Atoi t1).1 ∧ ParityShard c1 = (Atoi t2).1).
  { destruct (Z.eqb_spec (Atoi t1).1 (DataShard config));
      destruct (Z.eqb_spec (Atoi t2).1 (ParityShard config));
      cbn in Hres; injection Hres as <-; by split. }
  split; [by exists t1, t2, rest' |].
  destruct Hsh as [-> ->]. by rewrite !Z.eqb_refl.
Qed.

(** X12: the handler of a line panics exactly on a line whose first
    field contains [fec] and that has fewer than three fields; on every
    other line it returns.  Such a line stops the reader for good: what
    earlier lines did stays done, and no later line is read. *)
Theorem fifo_reader_stops_at_short_fec config connes reads1 line reads2 :
  let short :=
    ∃ t0 rest, Split_space line = t0 :: rest ∧
               Contains t0 "fec" = true ∧ (length rest < 2)%nat in
  ((∃ p, result (fifo_line config connes line) = Panic p) ↔ short) ∧
  (short →
   ∀ c, result (fifo_reader config connes reads1) = Ok c →
   ∃ p, fifo_reader config connes (reads1 ++ ReadLine line :: reads2)
        = mkRun (trace (fifo_reader config connes reads1)) (Panic p)).
Proof.
  intros short.
  assert (Hiff : ∀ config,
            (∃ p, result (fifo_line config connes line) = Panic p) ↔ short).
  { intros cfg. destruct (Split_space_fields line) as (t0 & rest & Hsplit).
    rewrite (fifo_line_fields cfg connes line t0 rest Hsplit). split.
    - intros [p Hp]. exists t0, rest. split; [done |].
      destruct (Contains t0 "fec"); [| done]. split; [done |].
      destruct rest as [| t1 [| t2 rest']]; simpl; [lia | lia |].
      by destruct (negb _ || negb _).
    - intros (t0' & rest' & Hsplit' & Hc & Hlen).
      rewrite Hsplit in Hsplit'. injection Hsplit' as <- <-. rewrite Hc.
      destruct rest as [| t1 [| t2 rest']]; [eauto | eauto | simpl in Hlen; lia]. }
  split; [apply Hiff |].
  intros (t0 & rest & Hsplit & Hc & Hlen) c Hres.
  destruct (fifo_short_fec_panics c connes line t0 rest reads2 Hsplit Hc Hlen)
    as (p & _ & Hp).
  exists p. rewrite fifo_reader_app, (andThen_ok _ _ c Hres), Hp.
  cbn. by rewrite app_nil_r.
Qed.

End FifoRuns.

(** * More on startup *)

Section StartupRuns.

(** The switch, by whether the configured name is in the table. *)
Lemma select_crypt_cases config pass :
  length pass = 32%nat →
  (∃ e, (Crypt config, e) ∈ crypt_table ∧
        select_crypt config pass = Ok (config, table_block pass e)) ∨
  ((Crypt config ∉ crypt_table.*1) ∧
   select_crypt config pass
   = Ok (set_Crypt config "aes", Some (mkBlock AES pass))).
Proof.
  intros Hlen.
  assert (H16 : slice_to pass 16 = Ok (take 16 pass))
    by (apply slice_to_in_range; lia).
  assert (H24 : slice_to pass 24 = Ok (take 24 pass))
    by (apply slice_to_in_range; lia).
  assert (H32 : take 32 pass = pass) by by apply take_all.
  destruct (decide (Crypt config ∈ crypt_table.*1)) as [Hin | Hnot].
  - left. cbn in Hin.
    repeat (apply elem_of_cons in Hin as [Hin | Hin]);
      [.. | by apply elem_of_nil in Hin].
    all: eexists; split;
      [ rewrite Hin; unfold crypt_table; repeat constructor
      | unfold select_crypt; rewrite Hin; cbn;
        rewrite ?H16, ?H24, ?H32; cbn;
        rewrite <- ?Hin, ?set_Crypt_same; reflexivity ].
  - right. split; [done |].
    assert (Hne : ∀ s, s ∈ crypt_table.*1 → String.eqb (Crypt config) s = false).
    { intros s Hs. apply String.eqb_neq. intros Heq. apply Hnot.
      by rewrite Heq. }
    unfold select_crypt. rewrite !Hne by (cbn; repeat constructor). reflexivity.
Qed.

(** X13: with a key derivation that returns the 32 bytes asked for and
    a mux version of at most 2, startup always gets through the cipher
    switch, without a panic.  It leaves the configuration as it is except
    for the crypt name, which ends up one of the fourteen known names; the
    cipher is missing exactly for [null]; its key is the first 16, 24 or
    32 bytes of the derived key; and starting again from the resulting
    configuration gives the same configuration and cipher. *)
Theorem startup_normalizes pbkdf2_Key config :
  (∀ p s i n, length (pbkdf2_Key p s i n) = n) →
  SmuxVer config ≤ 2 →
  let pass := pbkdf2_Key (String.list_byte_of_string (Key config))
                         (String.list_byte_of_string SALT) 4096%nat 32%nat in
  ∃ config' block,
    startup pbkdf2_Key config = Ok (config', block) ∧
    config' = set_Crypt config (Crypt config') ∧
    Crypt config' ∈ crypt_table.*1 ∧
    (block = None ↔ Crypt config = "null") ∧
    (∀ b, block = Some b →
       ∃ n, (n = 16 ∨ n = 24 ∨ n = 32)%nat ∧
            key b = take n pass ∧ length (key b) = n) ∧
    startup pbkdf2_Key config' = Ok (config', block).
Proof.
  intros Hpb Hv pass.
  assert (Hlen : length pass = 32%nat) by apply Hpb.
  assert (Hst : ∀ c, SmuxVer c ≤ 2 → Key c = Key config →
                     startup pbkdf2_Key c = select_crypt c pass).
  { intros c Hc Hk. rewrite (startup_selects pbkdf2_Key c Hc), Hk. reflexivity. }
  rewrite (Hst config Hv eq_refl).
  destruct (select_crypt_cases config pass Hlen)
    as [(e & Hin & Hsel) | (Hnot & Hsel)].
  - exists config, (table_block pass e). rewrite (Hst config Hv eq_refl), Hsel.
    split; [done |]. split; [by rewrite set_Crypt_same |].
    split; [apply list_elem_of_fmap; by exists (Crypt config, e) |].
    split; [| split; [| done]].
    + unfold crypt_table in Hin.
      repeat (apply elem_of_cons in Hin as [Hin | Hin]);
        [.. | by apply elem_of_nil in Hin];
        injection Hin as Hc ->; rewrite Hc; by split.
    + unfold crypt_table in Hin.
      repeat (apply elem_of_cons in Hin as [Hin | Hin]);
        [.. | by apply elem_of_nil in Hin];
        injection Hin as _ ->; intros b [= <-]; cbn [key];
        eexists; (split; [| split; [reflexivity | rewrite length_take; lia]]);
        auto.
  - exists (set_Crypt config "aes"), (Some (mkBlock AES pass)).
    rewrite Hsel, (Hst (set_Crypt config "aes") Hv eq_refl).
    split; [done |]. split; [done |].
    split; [cbn; repeat constructor |]. split; [| split; [| done]].
    + split; [done |]. intros Hnull. exfalso. apply Hnot.
      rewrite Hnull. cbn. repeat constructor.
    + intros b [= <-]. exists 32%nat. cbn [key]. rewrite take_all by done. auto.
Qed.

End StartupRuns.

Lemma startup_normalizes_witness :
  ∃ config' block,
    startup (λ _ _ _ n, replicate n x00)
            (mkConfig "k" "AES-128" 1 0 600 10 3 2 "" false)
    = Ok (config', block) ∧ Crypt config' ∈ crypt_table.*1.
Proof.
  destruct (startup_normalizes (λ _ _ _ n, replicate n x00)
              (mkConfig "k" "AES-128" 1 0 600 10 3 2 "" false)
              (λ _ _ _ n, length_replicate n x00) ltac:(by vm_compute))
    as (config' & block & H1 & _ & H2 & _).
  by exists config', block.
Defined.

(** * Mode profiles *)

(** X14: a profile name fixes all four tuning values, whatever the
    manual flags say, with [resend = 2] and [nc = 1]; every other mode
    string, [manual] or a misspelt profile alike, leaves the manual values
    as they are; and applying a mode twice is applying it once. *)
Theorem mode_profile_overrides mode t t' :
  (mode ∈ profile_names →
     apply_mode mode t = apply_mode mode t' ∧
     Resend (apply_mode mode t) = 2 ∧ NoCongestion (apply_mode mode t) = 1 ∧
     10 ≤ Interval (apply_mode mode t) ≤ 40) ∧
  (mode ∉ profile_names → apply_mode mode t = t) ∧
  apply_mode mode (apply_mode mode t) = apply_mode mode t.
Proof.
  unfold apply_mode, profile_names. split; [| split].
  - intros Hin.
    repeat (apply elem_of_cons in Hin as [-> | Hin]);
      [.. | by apply elem_of_nil in Hin]; cbn; repeat split; lia.
  - intros Hnot.
    assert (Hne : ∀ s, s ∈ profile_names → String.eqb mode s = false).
    { intros s Hs. apply String.eqb_neq. intros ->. by apply Hnot. }
    rewrite !Hne by (unfold profile_names; repeat constructor). done.
  - repeat match goal with
           | |- context [String.eqb mode ?s] =>
               destruct (String.eqb mode s) eqn:?
           end; try done.
Qed.

(** * [createConn] and [waitConn] *)

Section Dialing.

Variables (config : Config) (t : Transport).

Lemma createConn_no_reconnect_log o :
  reconnect_logs (createConn config t o).1 = [] ∧
  sleeps (createConn config t o).1 = [].
Proof. by destruct o as [[] [] [] [] [] []]. Qed.

Lemma createConn_outcome o :
  (createConn config t o).2
  = if dial_err o then Failed "dial()"
    else if verify_err o then Exited
    else if client_err o then Failed "createConn()"
    else Created.
Proof. by destruct o as [[] [] [] [] [] []]. Qed.

(** X15: a failure of [SetDSCP], [SetReadBuffer] or [SetWriteBuffer]
    is logged and changes nothing else: the calls [createConn] makes and
    the way it ends depend only on whether the dial, the verification of
    the mux configuration and the mux client fail.  A failed dial calls
    nothing after it; the mux configuration is verified only after a dial
    has succeeded; and the stream is compressed exactly when [NoComp] is
    off. *)
Theorem createConn_tuning_errors_logged_only o o' :
  dial_err o = dial_err o' →
  verify_err o = verify_err o' →
  client_err o = client_err o' →
  (createConn config t o).2 = (createConn config t o').2 ∧
  calls (createConn config t o).1 = calls (createConn config t o').1 ∧
  (dial_err o = true → (createConn config t o).1 = [Dial]) ∧
  (∀ c, VerifyConfig c ∈ (createConn config t o).1 → dial_err o = false) ∧
  (∀ b c, SmuxClient b c ∈ (createConn config t o).1 →
          b = negb (NoComp t) ∧ Version c = SmuxVer config ∧
          MaxReceiveBuffer c = SmuxBuf t ∧ MaxStreamBuffer c = StreamBuf t ∧
          KeepAliveInterval c = seconds (KeepAlive t)).
Proof.
  intros Hd Hv Hc.
  split; [by rewrite !createConn_outcome, Hd, Hv, Hc |]. split.
  { destruct o as [d1 d2 d3 d4 d5 d6], o' as [e1 e2 e3 e4 e5 e6].
    cbn in Hd, Hv, Hc. subst e1 e5 e6.
    by destruct d1, d2, d3, d4, d5, d6, e2, e3, e4. }
  split.
  { unfold createConn. intros Hde. by rewrite Hde. }
  split.
  - intros c. unfold createConn. destruct (dial_err o); [| done].
    intros [[=] | ?%elem_of_nil]%elem_of_cons. done.
  - intros b c Hin.
    assert (Hq : SmuxClient b c
                 = SmuxClient (negb (NoComp t))
                     (mkSmuxConfig (SmuxVer config) (SmuxBuf t) (StreamBuf t)
                                   (seconds (KeepAlive t)))).
    { revert Hin. unfold createConn, log_if.
      destruct o as [[] [] [] [] [] []]; cbn;
        rewrite ?elem_of_cons, ?elem_of_nil; intros Hin;
        repeat (destruct Hin as [Hin | Hin]; [try done |]); done. }
    by injection Hq as -> ->.
Qed.

(** The loop while the attempts fail. *)
Lemma waitConn_attempts_fail fails :
  Forall (λ o, attempt_fails o = true) fails →
  ∃ ev,
    (∀ attempts,
       waitConn_attempts config t (fails ++ attempts)
       = (ev ++ (waitConn_attempts config t attempts).1,
          (waitConn_attempts config t attempts).2)) ∧
    reconnect_logs ev = replicate (length fails) (Log "re-connecting:" []) ∧
    sleeps ev = replicate (length fails) Second.
Proof.
  induction fails as [| o fails IH]; intros Hf.
  - exists []. split; [| done]. intros attempts. cbn.
    by destruct (waitConn_attempts config t attempts).
  - apply Forall_cons in Hf as [Ho Hf].
    destruct (IH Hf) as (ev & H1 & H3 & H4).
    pose proof (createConn_outcome o) as Hout.
    pose proof (createConn_no_reconnect_log o) as [Hl Hs].
    destruct (createConn config t o) as [ev0 r] eqn:Hcc. cbn [fst snd] in *.
    assert (Hr : ∃ w, r = Failed w).
    { rewrite Hout. unfold attempt_fails in Ho.
      destruct (dial_err o); [eauto |].
      destruct (verify_err o); [done |].
      destruct (client_err o); [eauto | done]. }
    destruct Hr as [w ->].
    exists (ev0 ++ [ConnLog "re-connecting:"; Sleep Second] ++ ev). split.
    + intros attempts. cbn [app waitConn_attempts]. rewrite Hcc, H1.
      by rewrite <- !app_assoc.
    + unfold reconnect_logs, sleeps in *.
      rewrite !omap_app, Hl, Hs, H3, H4. done.
Qed.

(** X16: [waitConn] never gives up.  While every attempt fails (the
    dial, or the mux client) it is still in its loop, having logged
    "re-connecting:" and slept one second once per failed attempt. *)
Theorem waitConn_retries_forever attempts :
  Forall (λ o, attempt_fails o = true) attempts →
  (waitConn_attempts config t attempts).2 = WaitRetrying ∧
  sleeps (waitConn_attempts config t attempts).1
  = replicate (length attempts) Second ∧
  reconnect_logs (waitConn_attempts config t attempts).1
  = replicate (length attempts) (Log "re-connecting:" []).
Proof.
  intros Hf.
  destruct (waitConn_attempts_fail attempts Hf) as (ev & H1 & H3 & H4).
  specialize (H1 []). rewrite app_nil_r in H1. rewrite H1. cbn.
  by rewrite app_nil_r.
Qed.

Lemma waitConn_trace st d :
  trace (waitConn st d)
  = replicate (match d with DialReturns n | DialFatal n => n end)
              (Log "re-connecting:" []).
Proof.
  destruct d as [n | n]; unfold waitConn; rewrite andThen_trace, reconnecting_eq;
    cbn; by rewrite app_nil_r.
Qed.

(** X17: [waitConn] ends with the first attempt that does not merely
    fail, and attempts after it are never made.  If that attempt succeeds
    the session is returned, if its mux configuration does not verify the
    process exits.  After [n] failed attempts this is what the listener
    sees as a dial that returns (or is fatal) after [n] retries: the same
    [n] "re-connecting:" lines, and [n] sleeps of one second. *)
Theorem waitConn_first_decisive fails o rest st :
  Forall (λ o, attempt_fails o = true) fails →
  attempt_fails o = false →
  let r := waitConn_attempts config t (fails ++ o :: rest) in
  r = waitConn_attempts config t (fails ++ [o]) ∧
  sleeps r.1 = replicate (length fails) Second ∧
  (attempt_succeeds o = true →
     r.2 = WaitReturned ∧
     reconnect_logs r.1 = trace (waitConn st (DialReturns (length fails)))) ∧
  (attempt_succeeds o = false →
     r.2 = WaitExited ∧
     reconnect_logs r.1 = trace (waitConn st (DialFatal (length fails)))).
Proof.
  intros Hf Ho r. subst r. rewrite !waitConn_trace.
  destruct (waitConn_attempts_fail fails Hf) as (ev & H1 & H3 & H4).
  pose proof (createConn_outcome o) as Hout.
  pose proof (createConn_no_reconnect_log o) as [Hl Hs].
  assert (Hone : ∀ rest',
            waitConn_attempts config t (o :: rest')
            = ((createConn config t o).1,
               if attempt_succeeds o then WaitReturned else WaitExited)).
  { intros rest'. cbn [waitConn_attempts].
    destruct (createConn config t o) as [ev0 r0]. cbn [fst snd] in *.
    subst r0. unfold attempt_fails, attempt_succeeds in *.
    destruct (dial_err o); [done |].
    destruct (verify_err o); [done |].
    by destruct (client_err o). }
  rewrite !H1, !Hone. cbn [fst snd].
  unfold reconnect_logs, sleeps in *. rewrite !omap_app, Hl, Hs, H3, H4.
  rewrite !app_nil_r.
  split; [done |]. split; [done |].
  split; intros Hsucc; by rewrite Hsucc.
Qed.

End Dialing.

(** * [handleClient] *)

Section Client.

Implicit Types (session : option Session) (quiet : bool) (o : ClientObs).

(** X18: every call of [handleClient] closes the accepted connection,
    and that close is the last thing it does, also when the stream cannot
    be opened.  If the stream cannot be opened nothing is copied, no
    goroutine is started and the stream side is never touched.  If it is
    opened, the call itself and the goroutine it starts each close both
    ends once their copy has returned, whatever the copy returned. *)
Theorem handleClient_closes_p1 session quiet o :
  let r := handleClient session quiet o in
  last (foreground r) = Some (CloseEnd P1) ∧
  (session = None ∨ open_err o = true →
     background r = [] ∧
     Forall (λ e, touches_p2 e = false) (foreground r)) ∧
  (∀ s, session = Some s → open_err o = false →
     crashed r = None ∧
     client_actions (background r) = [Copy P1 P2; CloseEnd P1; CloseEnd P2] ∧
     client_actions (foreground r)
     = [OpenStream s; GoStreamCopy P1 P2; Copy P2 P1; CloseEnd P1;
        CloseEnd P2; CloseEnd P2; CloseEnd P1]).
Proof.
  cbv zeta. unfold handleClient, streamCopy, logln.
  split; [| split].
  - destruct session as [s |]; [| done].
    destruct (open_err o), quiet, (copy_up o); done.
  - intros [-> | Ho].
    + split; [done |]. by repeat constructor.
    + destruct session as [s |]; rewrite ?Ho;
        (split; [done |]); destruct quiet; by repeat constructor.
  - intros s -> ->. cbn [crashed background foreground].
    split; [done |].
    destruct quiet, (copy_up o), (copy_down o); done.
Qed.

(** X19: [quiet] silences the "stream opened", "stream closed" and
    open-error lines and nothing else: what the call and its goroutine do
    is the same with and without it, and a protocol error of the mux is
    logged either way, by whichever copy met it; any other copy error is
    never logged. *)
Theorem handleClient_quiet session o :
  client_actions (foreground (handleClient session true o))
  = client_actions (foreground (handleClient session false o)) ∧
  background (handleClient session true o)
  = background (handleClient session false o) ∧
  (∀ s, session = Some s → open_err o = false →
     client_logs (foreground (handleClient session true o))
     = (if copy_up o is CopyInvalidProtocol then ["smux"] else []) ∧
     client_logs (foreground (handleClient session false o))
     = ["stream opened"]
       ++ (if copy_up o is CopyInvalidProtocol then ["smux"] else [])
       ++ ["stream closed"] ∧
     ∀ quiet, client_logs (background (handleClient session quiet o))
              = if copy_down o is CopyInvalidProtocol then ["smux"] else []) ∧
  (session = None ∨ open_err o = true →
     client_logs (foreground (handleClient session true o)) = []).
Proof.
  unfold handleClient, streamCopy, logln.
  split; [| split; [| split]].
  - destruct session; [| done]. by destruct (open_err o), (copy_up o).
  - destruct session; [| done]. by destruct (open_err o).
  - intros s -> ->. cbn [foreground background].
    split; [by destruct (copy_up o) |]. split; [by destruct (copy_up o) |].
    intros quiet. by destruct (copy_down o).
  - intros [-> | Ho]; [done |]. destruct session; [| done]. by rewrite Ho.
Qed.

End Client.

(** X20: no handler the listener starts dies on a nil session: each one
    is given a session the pool has dialed, and its first step is to open
    a stream on that session. *)
Theorem listener_handlers_open_streams config os i s quiet o :
  GoHandleClient i s ∈ trace (acceptor config os) →
  crashed (handleClient s quiet o) = None ∧
  ∃ p, s = Some p ∧
       head (foreground (handleClient s quiet o)) = Some (OpenStream p).
Proof.
  intros Hin.
  destruct (acceptor_run_numconn_rr config os (listener_start config) i s Hin)
    as [_ [p ->]].
  { simpl. unfold uint16.
    pose proof (Z.mod_pos_bound (Conn config) (2 ^ 16)). lia. }
  unfold handleClient. split; [by destruct (open_err o) |].
  exists p. split; [done |]. by destruct (open_err o).
Qed.

(** * Instances *)

Lemma handlers_get_sessions_witness :
  (1 < Z.to_nat (uint16 3))%nat ∧ ∃ p : Session, Some 1%nat = Some p.
Proof.
  apply (handlers_get_sessions (mkConfig "k" "aes" 3 0 600 10 3 1 "" false)
           (replicate 2 (mkObs false false 0 (DialReturns 0) 0))
           1%nat (Some 1%nat)).
  vm_compute. repeat constructor.
Defined.

Lemma round_robin_rotation_witness :
  Z.of_nat 0 = (Z.of_nat 2 + 1) mod uint16 3.
Proof.
  refine (proj1 (round_robin_rotation
            (mkConfig "k" "aes" 3 0 600 10 3 1 "" false)
            (replicate 4 (mkObs false false 0 (DialReturns 0) 0))
            2%nat 2%nat 0%nat (Some 2%nat) (Some 0%nat) eq_refl eq_refl) _).
  by vm_compute.
Defined.

Lemma pool_fills_once_witness :
  ∃ st,
    result (acceptor (mkConfig "k" "aes" 2 0 600 10 3 1 "" false)
              (replicate 5 (mkObs false false 0 (DialReturns 0) 0))) = Ok st ∧
    allocated st = 2%nat.
Proof.
  destruct (pool_fills_once (mkConfig "k" "aes" 2 0 600 10 3 1 "" false)
              (replicate 5 (mkObs false false 0 (DialReturns 0) 0)))
    as (st & Hres & Ha & _).
  - by vm_compute.
  - by vm_compute.
  - by repeat constructor.
  - exists st. split; [exact Hres | exact Ha].
Defined.

Lemma ttl_close_after_grace_witness :
  ∃ item j,
    item ∈ recvs [Recv (mkTimed (Some 0%nat) 5)] ∧ session item = Some 0%nat ∧
    expiryDate item + 600 * 1000000000 < (λ _ : nat, 700000000000) j.
Proof.
  destruct (ttl_close_after_grace
              (mkConfig "k" "aes" 1 10 600 10 3 1 "" false)
              [Recv (mkTimed (Some 0%nat) 5)]
              [mkTimed (Some 0%nat) 600000000005]
              (λ _, false) (λ _, 700000000000) 0%nat)
    as (item & j & H1 & H2 & H3 & _).
  - reflexivity.
  - by vm_compute.
  - reflexivity.
  - vm_compute. constructor.
  - exists item, j. split; [exact H1 |]. split; [exact H2 | exact H3].
Defined.

Lemma scavenger_closes_once_witness :
  NoDup (closes (trace (scavenger
           (mkConfig "k" "aes" 1 10 600 10 3 1 "" false)
           [Recv (mkTimed (Some 0%nat) 10000000000);
            Tick (λ _, false) (λ _, 700000000000)]))).
Proof.
  refine (proj1 (proj2 (scavenger_closes_once
            (mkConfig "k" "aes" 1 10 600 10 3 1 "" false)
            [mkObs false false 0 (DialReturns 0) 0]
            [Recv (mkTimed (Some 0%nat) 10000000000);
             Tick (λ _, false) (λ _, 700000000000)] _))).
  vm_compute. repeat constructor.
Defined.

Lemma fifo_command_idempotent_witness :
  fifo_line (set_shards default_config 20 5) [Some 7%nat] "fec 20 5"
  = ret (set_shards default_config 20 5).
Proof.
  exact (proj2 (fifo_command_idempotent default_config [Some 0%nat]
                  [Some 7%nat] "fec 20 5" "fec" ["20"; "5"]
                  (set_shards default_config 20 5)
                  eq_refl eq_refl eq_refl)).
Defined.

Lemma fifo_reader_stops_at_short_fec_witness :
  ∃ p, fifo_reader default_config [Some 0%nat]
         ([ReadLine "fec 20 5"] ++ ReadLine "fec 1" :: [ReadLine "fec 30 6"])
       = mkRun (trace (fifo_reader default_config [Some 0%nat]
                         [ReadLine "fec 20 5"])) (Panic p).
Proof.
  refine (proj2 (fifo_reader_stops_at_short_fec default_config [Some 0%nat]
            [ReadLine "fec 20 5"] "fec 1" [ReadLine "fec 30 6"]) _
            (set_shards default_config 20 5) eq_refl).
  exists "fec", ["1"]. split; [reflexivity |]. split; [reflexivity |].
  simpl. lia.
Defined.

Lemma createConn_tuning_errors_logged_only_witness :
  (createConn default_config
     (mkTransport (mkTuning 0 30 2 1) 128 512 1350 false 0 4194304 4194304
                  2097152 10 false)
     (mkCreateObs false true true true false false)).2 = Created.
Proof.
  refine (eq_trans (proj1 (createConn_tuning_errors_logged_only
            default_config
            (mkTransport (mkTuning 0 30 2 1) 128 512 1350 false 0 4194304
                         4194304 2097152 10 false)
            (mkCreateObs false true true true false false)
            (mkCreateObs false false false false false false)
            eq_refl eq_refl eq_refl)) _).
  reflexivity.
Defined.

Lemma waitConn_retries_forever_witness :
  (waitConn_attempts default_config
     (mkTransport (mkTuning 0 30 2 1) 128 512 1350 false 0 4194304 4194304
                  2097152 10 false)
     (replicate 3 (mkCreateObs true false false false false false))).2
  = WaitRetrying.
Proof.
  refine (proj1 (waitConn_retries_forever default_config
            (mkTransport (mkTuning 0 30 2 1) 128 512 1350 false 0 4194304
                         4194304 2097152 10 false)
            (replicate 3 (mkCreateObs true false false false false false)) _)).
  by repeat constructor.
Defined.

Lemma waitConn_first_decisive_witness :
  sleeps (waitConn_attempts default_config
            (mkTransport (mkTuning 0 30 2 1) 128 512 1350 false 0 4194304
                         4194304 2097152 10 false)
            ([mkCreateObs true false false false false false;
              mkCreateObs false false false false false true]
             ++ mkCreateObs false false false false false false
                :: [mkCreateObs true false false false false false])).1
  = replicate 2 Second.
Proof.
  refine (proj1 (proj2 (waitConn_first_decisive default_config
            (mkTransport (mkTuning 0 30 2 1) 128 512 1350 false 0 4194304
                         4194304 2097152 10 false)
            [mkCreateObs true false false false false false;
             mkCreateObs false false false false false true]
            (mkCreateObs false false false false false false)
            [mkCreateObs true false false false false false]
            (listener_start default_config) _ eq_refl))).
  by repeat constructor.
Defined.

Lemma listener_handlers_open_streams_witness :
  crashed (handleClient (Some 0%nat) false
             (mkClientObs false CopyDone CopyError)) = None.
Proof.
  refine (proj1 (listener_handlers_open_streams default_config
            [mkObs false false 0 (DialReturns 0) 0] 0%nat (Some 0%nat) false
            (mkClientObs false CopyDone CopyError) _)).
  vm_compute. repeat constructor.
Defined.

